(** * Ray/AABB picking of the CS-330 camping scene (Source/MainCode.cpp)

    A shallow embedding of the picking helper of [MainCode.cpp]:
    the ray/box slab test [rayAabbSlab], the linear nearest-hit scan
    [pickObjectId] over the five example boxes, and the earlier
    formulation of the slab test printed in the milestone-one plan
    ([rayAabbSlab_plan]).

    The C++ [float] is kept abstract behind the interface [FloatOps];
    the functions are written once against it.  Two instances follow:
    - [B32Float]: IEEE-754 binary32 through [SpecFloat], the arithmetic
      the program runs on;
    - [QFloat]: exact rational arithmetic, the idealised reading in which
      no operation rounds, overflows or produces a NaN.
    What depends on the comparisons alone is proved once from the order
    laws [FloatOrder], which both instances satisfy.  What depends on the
    arithmetic of the plane parameters (how they move with the box, the
    equivalence with the plan) is proved on [QFloat]; the worked inputs are
    run on both.

    The second part embeds the texture table and the material lookup of
    [SceneManager.cpp] and the scroll-wheel callback of
    [ViewManager.cpp]. *)

From Stdlib Require Import String.
From Stdlib Require Import ZArith QArith Qabs Lqa Lia List Bool Permutation.
From Stdlib Require Import Floats.SpecFloat.
Import ListNotations.

(** ** The arithmetic the code uses *)

Declare Scope flt_scope.
Delimit Scope flt_scope with flt.

(** Operations of [float] that occur in the two functions.  The C++
    comparisons [a > b] and [a >= b] are [b < a] and [b <= a]. *)
Class FloatOps (F : Type) := {
  flit : Q -> F;            (* a literal, as the decimal written in the source *)
  FLT_MAX : F;              (* std::numeric_limits<float>::max() *)
  fsub : F -> F -> F;
  fmul : F -> F -> F;
  fdiv : F -> F -> F;
  fabs : F -> F;            (* std::abs *)
  fltb : F -> F -> bool;
  fleb : F -> F -> bool
}.

Infix "-" := fsub : flt_scope.
Infix "*" := fmul : flt_scope.
Infix "/" := fdiv : flt_scope.
Notation "a <? b" := (fltb a b) (at level 70, no associativity) : flt_scope.
Notation "a >? b" := (fltb b a) (at level 70, no associativity, only parsing) : flt_scope.
Notation "a <=? b" := (fleb a b) (at level 70, no associativity) : flt_scope.
Notation "a >=? b" := (fleb b a) (at level 70, no associativity, only parsing) : flt_scope.

(** Largest finite binary32 value, (2^24 - 1) * 2^104. *)
Definition FLT_MAX_Q : Q := 340282346638528859811704183484516925440.

#[export] Instance QFloat : FloatOps Q := {
  flit q := q;
  FLT_MAX := FLT_MAX_Q;
  fsub := Qminus;
  fmul := Qmult;
  fdiv := Qdiv;
  fabs := Qabs;
  fltb a b := negb (Qle_bool b a);
  fleb := Qle_bool
}.

(** binary32: 24 bits of precision, exponents below 128.  A literal is the
    float nearest to the decimal (a correctly rounded quotient of two
    exactly representable integers). *)
Definition b32 := spec_float.
Definition b32_of_Z (n : Z) : b32 := binary_normalize 24 128 n 0 false.

#[export] Instance B32Float : FloatOps b32 := {
  flit q := SFdiv 24 128 (b32_of_Z (Qnum q)) (b32_of_Z (Zpos (Qden q)));
  FLT_MAX := SFmax_float 24 128;
  fsub := SFsub 24 128;
  fmul := SFmul 24 128;
  fdiv := SFdiv 24 128;
  fabs := SFabs;
  fltb := SFltb;
  fleb := SFleb
}.

(** What the proofs about comparisons alone rely on.  The laws hold of
    the rationals and of binary32, where a comparison with a NaN operand
    is false: [a <= a] says that [a] is not a NaN. *)
Definition ordered {F} `{FloatOps F} (a : F) : Prop := (a <=? a)%flt = true.

Class FloatOrder (F : Type) {FO : FloatOps F} : Prop := {
  fltb_fleb : forall a b : F, (a <? b)%flt = true -> (a <=? b)%flt = true;
  fleb_trans : forall a b c : F,
    (a <=? b)%flt = true -> (b <=? c)%flt = true -> (a <=? c)%flt = true;
  fltb_not_ge : forall a b : F, (a <? b)%flt = true -> (b <=? a)%flt = false;
  fleb_total : forall a b : F,
    ordered a -> ordered b -> (a <? b)%flt = false -> (b <=? a)%flt = true;
  fleb_ordered : forall a b : F, (a <=? b)%flt = true -> ordered a /\ ordered b;
  zero_le_FLT_MAX : (flit 0 <=? FLT_MAX)%flt = true
}.

(** ** Data model and the two functions *)

Section Picking.
Context {F : Type} {FO : FloatOps F}.
Local Open Scope flt_scope.

(** glm::vec3, with its [operator[]] on the indices the loops use. *)
Record vec3 := Vec3 { x : F; y : F; z : F }.

Definition component (v : vec3) (axis : nat) : F :=
  match axis with
  | O => x v
  | 1%nat => y v
  | _ => z v
  end.

Notation "v .[ i ]" := (component v i) (at level 1, left associativity, format "v .[ i ]").

Record Ray := { origin : vec3; dir : vec3 }.
Record AABB := { min : vec3; max : vec3 }.

Definition EPS : F := flit 1e-6.

(** The origin-inside test at the head of [rayAabbSlab]. *)
Definition inside (r : Ray) (box : AABB) : bool :=
  (x (origin r) >=? x (min box)) && (x (origin r) <=? x (max box)) &&
  (y (origin r) >=? y (min box)) && (y (origin r) <=? y (max box)) &&
  (z (origin r) >=? z (min box)) && (z (origin r) <=? z (max box)).

(** One iteration of the slab loop.  [None] is the early [return false];
    [Some (tMin, tMax)] are the locals carried to the next axis.  The
    second component lists the denominators of the divisions evaluated. *)
Definition slab_axis (r : Ray) (box : AABB) (axis : nat) (tMin tMax : F)
  : option (F * F) * list F :=
  if fabs ((dir r).[axis]) <? EPS then
    (if ((origin r).[axis] <? (min box).[axis]) || ((origin r).[axis] >? (max box).[axis])
     then None
     else Some (tMin, tMax), [])
  else
    let invDir := flit 1 / (dir r).[axis] in
    let t0 := ((min box).[axis] - (origin r).[axis]) * invDir in
    let t1 := ((max box).[axis] - (origin r).[axis]) * invDir in
    let '(t0, t1) := if invDir <? flit 0 then (t1, t0) else (t0, t1) in
    let tMin := if t0 >? tMin then t0 else tMin in
    let tMax := if t1 <? tMax then t1 else tMax in
    (if tMin >? tMax then None else Some (tMin, tMax), [(dir r).[axis]]).

(** [for (int axis = ...; axis < 3; ++axis)], over the axes still to do. *)
Fixpoint slab_loop (r : Ray) (box : AABB) (axes : list nat) (tMin tMax : F)
  : option (F * F) * list F :=
  match axes with
  | [] => (Some (tMin, tMax), [])
  | axis :: rest =>
      match slab_axis r box axis tMin tMax with
      | (None, ds) => (None, ds)
      | (Some (tMin', tMax'), ds) =>
          let '(res, ds') := slab_loop r box rest tMin' tMax' in
          (res, ds ++ ds')
      end
  end.

(** The code after the loop. *)
Definition slab_result (tMin tMax : F) : option F :=
  if tMin >=? flit 0 then Some tMin
  else if tMax >=? flit 0 then Some tMax
  else None.

(** [rayAabbSlab] with the denominators it divided by.  [Some tNear]
    stands for [return true] with the output parameter set, [None] for
    [return false] (the output parameter is then left untouched). *)
Definition rayAabbSlab_run (r : Ray) (box : AABB) : option F * list F :=
  if inside r box then (Some (flit 0), [])
  else
    match slab_loop r box [0; 1; 2]%nat (flit 0) FLT_MAX with
    | (None, ds) => (None, ds)
    | (Some (tMin, tMax), ds) => (slab_result tMin tMax, ds)
    end.

Definition rayAabbSlab (r : Ray) (box : AABB) : option F :=
  fst (rayAabbSlab_run r box).

Definition divisors (r : Ray) (box : AABB) : list F :=
  snd (rayAabbSlab_run r box).

(** The formulation of the milestone-one plan: no inside test, the swap
    decided by [t1 > t2], [tmax] started at infinity.  Infinity is [None]
    below: as long as [tmax] is infinite, [std::min(tmax, t2)] is [t2]
    (for a [t2] that is not a NaN) and [tmin > tmax] is false.
    [std::max(a, b)] is [(a < b) ? b : a] and [std::min(a, b)] is
    [(b < a) ? b : a]. *)
Definition plan_axis (r : Ray) (box : AABB) (i : nat) (tmin : F) (tmax : option F)
  : option (F * option F) :=
  let o := (origin r).[i] in
  let d := (dir r).[i] in
  let bmin := (min box).[i] in
  let bmax := (max box).[i] in
  if fabs d <? EPS then
    if (o <? bmin) || (o >? bmax) then None else Some (tmin, tmax)
  else
    let inv := flit 1 / d in
    let t1 := (bmin - o) * inv in
    let t2 := (bmax - o) * inv in
    let '(t1, t2) := if t1 >? t2 then (t2, t1) else (t1, t2) in
    let tmin := if tmin <? t1 then t1 else tmin in
    let tmax := match tmax with
                | None => t2
                | Some m => if t2 <? m then t2 else m
                end in
    if tmin >? tmax then None else Some (tmin, Some tmax).

Fixpoint plan_loop (r : Ray) (box : AABB) (axes : list nat) (tmin : F) (tmax : option F)
  : option (F * option F) :=
  match axes with
  | [] => Some (tmin, tmax)
  | i :: rest =>
      match plan_axis r box i tmin tmax with
      | None => None
      | Some (tmin', tmax') => plan_loop r box rest tmin' tmax'
      end
  end.

Definition rayAabbSlab_plan (r : Ray) (box : AABB) : option F :=
  match plan_loop r box [0; 1; 2]%nat (flit 0) None with
  | None => None
  | Some (tmin, _) => Some (if tmin >=? flit 0 then tmin else flit 0)
  end.

(** The picker. *)
Record ObjectBounds := { id : Z; bounds : AABB }.

Definition box3 (a b c d e f : Q) : AABB :=
  {| min := Vec3 (flit a) (flit b) (flit c); max := Vec3 (flit d) (flit e) (flit f) |}.

Definition objects : list ObjectBounds :=
  [ {| id := 0; bounds := box3 (-1) 0 (-1) 1 2 1 |};
    {| id := 1; bounds := box3 2 0 (-0.5) 3 1.5 0.5 |};
    {| id := 2; bounds := box3 (-2) 0 1 (-1.5) 0.5 2 |};
    {| id := 3; bounds := box3 0 0 2 0.5 1 2.5 |};
    {| id := 4; bounds := box3 (-0.5) 0 (-2) 0.5 0.3 (-1.5) |} ].

(** The scan [for (int i = 0; i < numObjects; ++i)] over the candidates
    still to visit, with the locals [closestId] and [closestT]. *)
Fixpoint pick_loop (r : Ray) (objs : list ObjectBounds) (closestId : Z) (closestT : F) : Z :=
  match objs with
  | [] => closestId
  | o :: rest =>
      match rayAabbSlab r (bounds o) with
      | Some tNear =>
          if (tNear >=? flit 0) && (tNear <? closestT)
          then pick_loop r rest (id o) tNear
          else pick_loop r rest closestId closestT
      | None => pick_loop r rest closestId closestT
      end
  end.

Definition pickObjectId (r : Ray) : Z := pick_loop r objects (-1) FLT_MAX.

End Picking.

Arguments vec3 F : clear implicits.
Arguments Ray F : clear implicits.
Arguments AABB F : clear implicits.
Arguments ObjectBounds F : clear implicits.

Notation "v .[ i ]" := (component v i) (at level 1, left associativity, format "v .[ i ]").

(** [pickObjectId] with the candidate table as an argument. *)
Definition pickNearest {F} `{FloatOps F} (r : Ray F) (objs : list (ObjectBounds F)) : Z :=
  pick_loop r objs (-1) FLT_MAX.

(** Rays with literal coordinates, for the worked examples. *)
Definition ray {F} `{FloatOps F} (ox oy oz dx dy dz : Q) : Ray F :=
  {| origin := Vec3 (flit ox) (flit oy) (flit oz);
     dir := Vec3 (flit dx) (flit dy) (flit dz) |}.

(** The data-model invariant of a box and the origin-inside condition,
    through the comparisons of the arithmetic at hand. *)
Definition valid_box {F} `{FloatOps F} (box : AABB F) : Prop :=
  forall axis, ((min box).[axis] <=? (max box).[axis])%flt = true.

Definition origin_within {F} `{FloatOps F} (r : Ray F) (box : AABB F) : Prop :=
  forall axis,
    ((min box).[axis] <=? (origin r).[axis])%flt = true /\
    ((origin r).[axis] <=? (max box).[axis])%flt = true.

(** The two plane parameters of an axis in the order the loop uses them
    after its swap: where the ray enters the slab and where it leaves. *)
Definition t_near {F} `{FloatOps F} (r : Ray F) (box : AABB F) (axis : nat) : F :=
  (let invDir := flit 1 / (dir r).[axis] in
   if invDir <? flit 0
   then ((max box).[axis] - (origin r).[axis]) * invDir
   else ((min box).[axis] - (origin r).[axis]) * invDir)%flt.

Definition t_far {F} `{FloatOps F} (r : Ray F) (box : AABB F) (axis : nat) : F :=
  (let invDir := flit 1 / (dir r).[axis] in
   if invDir <? flit 0
   then ((min box).[axis] - (origin r).[axis]) * invDir
   else ((max box).[axis] - (origin r).[axis]) * invDir)%flt.

(** The axis is skipped by the EPS guard. *)
Definition parallel {F} `{FloatOps F} (r : Ray F) (axis : nat) : bool :=
  (fabs ((dir r).[axis]) <? EPS)%flt.

(** The range check of a skipped axis fails. *)
Definition outside {F} `{FloatOps F} (r : Ray F) (box : AABB F) (axis : nat) : bool :=
  (((origin r).[axis] <? (min box).[axis]) || ((origin r).[axis] >? (max box).[axis]))%flt.

(** The two plane parameters of an axis as the plan orders them. *)
Definition plan_near {F} `{FloatOps F} (r : Ray F) (box : AABB F) (i : nat) : F :=
  (let inv := flit 1 / (dir r).[i] in
   let t1 := ((min box).[i] - (origin r).[i]) * inv in
   let t2 := ((max box).[i] - (origin r).[i]) * inv in
   if t1 >? t2 then t2 else t1)%flt.

Definition plan_far {F} `{FloatOps F} (r : Ray F) (box : AABB F) (i : nat) : F :=
  (let inv := flit 1 / (dir r).[i] in
   let t1 := ((min box).[i] - (origin r).[i]) * inv in
   let t2 := ((max box).[i] - (origin r).[i]) * inv in
   if t1 >? t2 then t1 else t2)%flt.

(** The upper bound of the implemented loop against the one of the plan:
    the former is the latter cut at [FLT_MAX]. *)
Definition bound_matches (tMax : Q) (tmax : option Q) : Prop :=
  (tMax <= FLT_MAX /\
   match tmax with
   | None => tMax == FLT_MAX
   | Some m => tMax <= m /\ (tMax == m \/ tMax == FLT_MAX)
   end)%Q.

Definition bound_nonneg (tmax : option Q) : Prop :=
  match tmax with Some m => (0 <= m)%Q | None => True end.

(** ** Worked inputs *)

(** The first of the five example boxes, and the ray of the first
    evidence hook of the source, which hits it at distance 1. *)
Definition campfire_box {F} `{FloatOps F} : AABB F := box3 (-1) 0 (-1) 1 2 1.
Definition hook_ray {F} `{FloatOps F} : Ray F := ray 0 1 (-2) 0 0 1.

(** A ray that starts in the middle of that box. *)
Definition inner_ray {F} `{FloatOps F} : Ray F := ray 0 1 0 0 0 1.

(** A ray along +x whose origin is [FLT_MAX] to the left of the plane
    x = 0, through the fourth example box (id 3). *)
Definition distant_ray {F} `{FloatOps F} : Ray F := ray (-FLT_MAX_Q) 0.5 2.25 1 0 0.

(** A flat box in the plane x = FLT_MAX and a ray towards it from
    x = -FLT_MAX. *)
Definition remote_box {F} `{FloatOps F} : AABB F :=
  box3 FLT_MAX_Q (-1) (-1) FLT_MAX_Q 1 1.
Definition remote_ray {F} `{FloatOps F} : Ray F := ray (-FLT_MAX_Q) 0 0 1 0 0.

(** The ray of the second evidence hook of the source, which misses
    every example box. *)
Definition far_ray {F} `{FloatOps F} : Ray F := ray 10 10 10 1 0 0.

(** A ray leaving the first example box behind: it starts in front of
    the box and points away from it. *)
Definition leaving_ray {F} `{FloatOps F} : Ray F := ray 0 1 (-2) 0 0 (-1).

(** The most negative finite value, as a start of [tMin] that no plane
    parameter of the worked inputs falls below. *)
Definition FLT_LOWEST {F} `{FloatOps F} : F := flit (- FLT_MAX_Q).

(** ** What the picker is asked to do *)

(** The candidate's box is hit at distance [t]. *)
Definition hit_at {F} `{FloatOps F} (r : Ray F) (c : ObjectBounds F) (t : F) : Prop :=
  rayAabbSlab r (bounds c) = Some t.

(** Nearest-hit selection as required of the picker: the sentinel when no
    candidate is hit, otherwise the identifier of a hit candidate whose
    distance no other hit candidate undercuts. *)
Definition picks_nearest_hit {F} `{FloatOps F} (r : Ray F) (objs : list (ObjectBounds F)) : Prop :=
  ((forall c, In c objs -> rayAabbSlab r (bounds c) = None) ->
   pickNearest r objs = (-1)%Z) /\
  ((exists c t, In c objs /\ hit_at r c t) ->
   exists c t, In c objs /\ hit_at r c t /\
               (forall c' t', In c' objs -> hit_at r c' t' -> (t <=? t')%flt = true) /\
               pickNearest r objs = id c).

(** First-wins on ties as required of the picker: [c] is hit at the
    minimal distance, nothing before it reaches that distance, and a later
    candidate ties with it. *)
Definition tie_goes_to_first {F} `{FloatOps F} (r : Ray F)
    (l1 : list (ObjectBounds F)) (c : ObjectBounds F) (l2 : list (ObjectBounds F)) : Prop :=
  forall t,
    hit_at r c t ->
    (forall o s, In o l1 -> hit_at r o s -> (t <? s)%flt = true) ->
    (forall o s, In o l2 -> hit_at r o s -> (t <=? s)%flt = true) ->
    (exists o s, In o l2 /\ hit_at r o s /\ (s <=? t)%flt = true) ->
    pickNearest r (l1 ++ c :: l2) = id c.

(** The behind-origin policy as required of the intersector, read on the
    slab interval of the ray in the box (the tightening started from a
    lower bound [L] that does not clamp it): an interval that begins
    behind the origin and ends ahead of it is a hit at its end. *)
Definition exit_hit_when_entry_behind {F} `{FloatOps F} (r : Ray F) (box : AABB F) : Prop :=
  forall L tMin tMax,
    fst (slab_loop r box [0; 1; 2]%nat L FLT_MAX) = Some (tMin, tMax) ->
    (tMin <? flit 0)%flt = true -> (flit 0 <=? tMax)%flt = true ->
    rayAabbSlab r box = Some tMax.

(** Two candidates with the box of example object 3. *)
Definition tent_box {F} `{FloatOps F} : AABB F := box3 0 0 2 0.5 1 2.5.
Definition twin_a {F} `{FloatOps F} : ObjectBounds F := {| id := 10; bounds := tent_box |}.
Definition twin_b {F} `{FloatOps F} : ObjectBounds F := {| id := 11; bounds := tent_box |}.

(** A ray along +x from x = -FLT_MAX through the first two example
    boxes. *)
Definition grazing_ray {F} `{FloatOps F} : Ray F := ray (-FLT_MAX_Q) 1 0 1 0 0.

(** What [rayAabbSlab] reports for each candidate of a table. *)
Definition hits {F} `{FloatOps F} (r : Ray F) (objs : list (ObjectBounds F)) : list (option F) :=
  map (fun o => rayAabbSlab r (bounds o)) objs.

(** A binary32 value that is a number at or above zero: not a NaN, not an
    infinity, not negative. *)
Definition finite_nonneg (t : b32) : bool :=
  match t with
  | S754_zero _ => true
  | S754_finite false _ _ => true
  | _ => false
  end.

(** ** The texture table of the scene manager (Source/SceneManager.cpp)

    [main] builds a [SceneManager] and calls [PrepareScene], which fills
    the table of loaded textures that the drawing code looks tags up in.
    What the functions leave to the libraries is an input here: the result
    of [stbi_load] (the channel count of the image, if it loads) and the
    texture name written by [glGenTextures]. *)

(** An entry of [m_textureIDs].  The struct is declared in SceneManager.h,
    which is not among the sources; [DestroyGLTextures] passes the address
    of [ID] to [glGenTextures], so [ID] is a [GLuint], and [FindTextureID]
    returns it as an [int]. *)
Module TEXTURE_INFO.
Record t := mk { ID : Z; tag : String.string }.
End TEXTURE_INFO.

Definition GLuint_of (z : Z) : Z := z mod 2 ^ 32.
Definition int_of_GLuint (u : Z) : Z := if (u <? 2 ^ 31)%Z then u else (u - 2 ^ 32)%Z.

(** The two members the texture functions use: the array of 16 entries
    that the constructor initialises, and the count of loaded textures (an
    [int] that starts at 0 and only grows by one: a natural number here). *)
Record SceneManager := {
  m_textureIDs : list TEXTURE_INFO.t;
  m_loadedTextures : nat
}.

(** A call either returns or reads or writes [m_textureIDs] past its end,
    which the source does not check for. *)
Inductive outcome (A : Type) : Type :=
| Returned (a : A)
| OutOfBounds.
Arguments Returned {A} a.
Arguments OutOfBounds {A}.

(** [ID = -1; tag = "/0"], as the constructor and [PrepareScene] write
    into each of the 16 entries. *)
Definition unregistered : TEXTURE_INFO.t :=
  TEXTURE_INFO.mk (GLuint_of (-1)) "/0"%string.

Definition new_SceneManager : SceneManager :=
  {| m_textureIDs := repeat unregistered 16; m_loadedTextures := 0 |}.

(** [m_textureIDs[index] = e]. *)
Definition store (index : nat) (e : TEXTURE_INFO.t) (arr : list TEXTURE_INFO.t)
  : list TEXTURE_INFO.t :=
  firstn index arr ++ e :: skipn (S index) arr.

(** [CreateGLTexture(filename, tag)]: [image] is the channel count of the
    image when [stbi_load] succeeds, [textureID] the name [glGenTextures]
    writes. *)
Definition CreateGLTexture (image : option Z) (textureID : Z) (tag : String.string)
    (s : SceneManager) : outcome (bool * SceneManager) :=
  match image with
  | Some colorChannels =>
      if ((colorChannels =? 3) || (colorChannels =? 4))%Z then
        if (m_loadedTextures s <? length (m_textureIDs s))%nat then
          Returned (true,
                    {| m_textureIDs :=
                         store (m_loadedTextures s)
                               (TEXTURE_INFO.mk (GLuint_of textureID) tag)
                               (m_textureIDs s);
                       m_loadedTextures := S (m_loadedTextures s) |})
        else OutOfBounds
      else Returned (false, s)
  | None => Returned (false, s)
  end.

(** The loop of [FindTextureSlot], from [index] on; [fuel] bounds the
    iterations left ([m_loadedTextures - index] suffice). *)
Fixpoint FindTextureSlot_from (s : SceneManager) (tag : String.string)
    (fuel index : nat) : outcome Z :=
  match fuel with
  | O => Returned (-1)%Z
  | S fuel' =>
      if (index <? m_loadedTextures s)%nat then
        match nth_error (m_textureIDs s) index with
        | None => OutOfBounds
        | Some e =>
            if String.eqb (TEXTURE_INFO.tag e) tag
            then Returned (Z.of_nat index)
            else FindTextureSlot_from s tag fuel' (S index)
        end
      else Returned (-1)%Z
  end.

Definition FindTextureSlot (tag : String.string) (s : SceneManager) : outcome Z :=
  FindTextureSlot_from s tag (m_loadedTextures s) 0.

Fixpoint FindTextureID_from (s : SceneManager) (tag : String.string)
    (fuel index : nat) : outcome Z :=
  match fuel with
  | O => Returned (-1)%Z
  | S fuel' =>
      if (index <? m_loadedTextures s)%nat then
        match nth_error (m_textureIDs s) index with
        | None => OutOfBounds
        | Some e =>
            if String.eqb (TEXTURE_INFO.tag e) tag
            then Returned (int_of_GLuint (TEXTURE_INFO.ID e))
            else FindTextureID_from s tag fuel' (S index)
        end
      else Returned (-1)%Z
  end.

Definition FindTextureID (tag : String.string) (s : SceneManager) : outcome Z :=
  FindTextureID_from s tag (m_loadedTextures s) 0.

(** The calls [BindGLTextures] and [DestroyGLTextures] make. *)
Inductive gl_call : Type :=
| glActiveTexture (unit : nat)        (* glActiveTexture(GL_TEXTURE0 + unit) *)
| glBindTexture (texture : Z)         (* glBindTexture(GL_TEXTURE_2D, texture) *)
| glGenTextures.                       (* glGenTextures(1, &name) *)

Fixpoint BindGLTextures_from (s : SceneManager) (fuel i : nat) : outcome (list gl_call) :=
  match fuel with
  | O => Returned []
  | S fuel' =>
      if (i <? m_loadedTextures s)%nat then
        match nth_error (m_textureIDs s) i with
        | None => OutOfBounds
        | Some e =>
            match BindGLTextures_from s fuel' (S i) with
            | Returned calls =>
                Returned (glActiveTexture i :: glBindTexture (TEXTURE_INFO.ID e) :: calls)
            | OutOfBounds => OutOfBounds
            end
        end
      else Returned []
  end.

Definition BindGLTextures (s : SceneManager) : outcome (list gl_call) :=
  BindGLTextures_from s (m_loadedTextures s) 0.

(** [DestroyGLTextures]: [fresh i] is the name [glGenTextures] writes over
    the [ID] of entry [i]. *)
Fixpoint DestroyGLTextures_from (fresh : nat -> Z) (arr : list TEXTURE_INFO.t)
    (loaded fuel i : nat) : outcome (list TEXTURE_INFO.t * list gl_call) :=
  match fuel with
  | O => Returned (arr, [])
  | S fuel' =>
      if (i <? loaded)%nat then
        match nth_error arr i with
        | None => OutOfBounds
        | Some e =>
            match DestroyGLTextures_from fresh
                    (store i (TEXTURE_INFO.mk (GLuint_of (fresh i)) (TEXTURE_INFO.tag e)) arr)
                    loaded fuel' (S i) with
            | Returned (arr', calls) => Returned (arr', glGenTextures :: calls)
            | OutOfBounds => OutOfBounds
            end
        end
      else Returned (arr, [])
  end.

Definition DestroyGLTextures (fresh : nat -> Z) (s : SceneManager)
  : outcome (SceneManager * list gl_call) :=
  match DestroyGLTextures_from fresh (m_textureIDs s) (m_loadedTextures s)
          (m_loadedTextures s) 0 with
  | Returned (arr, calls) =>
      Returned ({| m_textureIDs := arr; m_loadedTextures := m_loadedTextures s |}, calls)
  | OutOfBounds => OutOfBounds
  end.

(** What [SetShaderTexture] sends to the shader manager (nothing when
    [m_pShaderManager] is NULL). *)
Inductive shader_call : Type :=
| setIntValue (name : String.string) (value : Z)
| setSampler2DValue (name : String.string) (value : Z).

Definition SetShaderTexture (has_shader : bool) (textureTag : String.string)
    (s : SceneManager) : outcome (list shader_call) :=
  if has_shader then
    match FindTextureSlot textureTag s with
    | Returned textureID =>
        Returned [setIntValue "bUseTexture" 1; setSampler2DValue "objectTexture" textureID]
    | OutOfBounds => OutOfBounds
    end
  else Returned [].

(** The texture part of [PrepareScene]: the table is reset, then the
    eleven files are loaded in this order, the results of
    [CreateGLTexture] being ignored. *)
Definition scene_textures : list (String.string * String.string) :=
  [ ("./textures/grass.jpg", "grass");
    ("./textures/tree-bark.jpg", "bark");
    ("./textures/granite.jpeg", "granite");
    ("./textures/moon.jpg", "moon");
    ("./textures/canvas.jpg", "canvas");
    ("./textures/canvas2.jpg", "canvas2");
    ("./textures/pebblestone.jpg", "pebblestone");
    ("./textures/background.png", "background");
    ("./textures/rope.png", "rope");
    ("./textures/pine-needle.jpg", "pine-needle");
    ("./textures/tan-leather.jpg", "tan-leather") ]%string.

(** A sequence of [CreateGLTexture] calls, each with what the libraries
    answer: (result of [stbi_load], name from [glGenTextures], tag). *)
Fixpoint CreateGLTextures (calls : list (option Z * Z * String.string))
    (s : SceneManager) : outcome SceneManager :=
  match calls with
  | [] => Returned s
  | (image, textureID, tag) :: rest =>
      match CreateGLTexture image textureID tag s with
      | Returned (_, s') => CreateGLTextures rest s'
      | OutOfBounds => OutOfBounds
      end
  end.

(** [world file] is what the libraries answer for a file. *)
Definition PrepareScene_textures (world : String.string -> option Z * Z)
    (s : SceneManager) : outcome SceneManager :=
  CreateGLTextures
    (map (fun ft => (fst (world (fst ft)), snd (world (fst ft)), snd ft)) scene_textures)
    new_SceneManager.

(** *** Reading the table *)

(** The table is in the state the functions rely on: 16 entries, at most
    16 of them loaded. *)
Definition table_ok (s : SceneManager) : Prop :=
  length (m_textureIDs s) = 16%nat /\ (m_loadedTextures s <= 16)%nat.

(** The loaded entries, in slot order. *)
Definition registered (s : SceneManager) : list TEXTURE_INFO.t :=
  firstn (m_loadedTextures s) (m_textureIDs s).

(** The position of the first entry with a tag. *)
Fixpoint first_index (tag : String.string) (l : list TEXTURE_INFO.t) : option nat :=
  match l with
  | [] => None
  | e :: rest =>
      if String.eqb (TEXTURE_INFO.tag e) tag then Some 0%nat
      else option_map S (first_index tag rest)
  end.

(** A call registers an entry: the image loads with 3 or 4 channels. *)
Definition loads (image : option Z) : bool :=
  match image with
  | Some colorChannels => ((colorChannels =? 3) || (colorChannels =? 4))%Z
  | None => false
  end.


(** The entries a sequence of [CreateGLTexture] calls registers, in call
    order: one for each call whose image loads. *)
Definition registrations (calls : list (option Z * Z * String.string))
  : list TEXTURE_INFO.t :=
  map (fun c => TEXTURE_INFO.mk (GLuint_of (snd (fst c))) (snd c))
      (filter (fun c => loads (fst (fst c))) calls).

(** The calls of [BindGLTextures] for the entries [l] of the slots from
    [i] on. *)
Fixpoint bind_calls (i : nat) (l : list TEXTURE_INFO.t) : list gl_call :=
  match l with
  | [] => []
  | e :: rest =>
      glActiveTexture i :: glBindTexture (TEXTURE_INFO.ID e) :: bind_calls (S i) rest
  end.

(** ** Materials (Source/SceneManager.cpp)

    An entry of [m_objectMaterials], with the members [FindMaterial]
    reads and writes. *)
Module OBJECT_MATERIAL.
Record t (F : Type) := mk {
  diffuseColor : vec3 F;
  specularColor : vec3 F;
  shininess : F;
  tag : String.string
}.
Arguments mk {F} _ _ _ _.
Arguments diffuseColor {F} _.
Arguments specularColor {F} _.
Arguments shininess {F} _.
Arguments tag {F} _.
End OBJECT_MATERIAL.

(** The [while] loop of [FindMaterial] over the entries from [index] on:
    the three members of the first entry with the tag are copied into
    [material]. *)
Fixpoint FindMaterial_loop {F} (tag : String.string) (rest : list (OBJECT_MATERIAL.t F))
    (material : OBJECT_MATERIAL.t F) : OBJECT_MATERIAL.t F :=
  match rest with
  | [] => material
  | m :: rest' =>
      if String.eqb (OBJECT_MATERIAL.tag m) tag then
        OBJECT_MATERIAL.mk (OBJECT_MATERIAL.diffuseColor m)
                           (OBJECT_MATERIAL.specularColor m)
                           (OBJECT_MATERIAL.shininess m)
                           (OBJECT_MATERIAL.tag material)
      else FindMaterial_loop tag rest' material
  end.

(** [FindMaterial(tag, material)]: the returned [bool] and the reference
    parameter [material] after the call. *)
Definition FindMaterial {F} (tag : String.string) (material : OBJECT_MATERIAL.t F)
    (m_objectMaterials : list (OBJECT_MATERIAL.t F)) : bool * OBJECT_MATERIAL.t F :=
  if (length m_objectMaterials =? 0)%nat then (false, material)
  else (true, FindMaterial_loop tag m_objectMaterials material).

(** What [SetShaderMaterial] sends to the shader manager, which it
    takes to be there.  [material] is the value its local variable of that
    name holds before the call of [FindMaterial]; the source does not
    initialise it. *)
Inductive material_call (F : Type) : Type :=
| setVec3Value (name : String.string) (value : vec3 F)
| setFloatValue (name : String.string) (value : F).
Arguments setVec3Value {F} name value.
Arguments setFloatValue {F} name value.

Definition SetShaderMaterial {F} (materialTag : String.string)
    (material : OBJECT_MATERIAL.t F) (m_objectMaterials : list (OBJECT_MATERIAL.t F))
  : list (material_call F) :=
  if (0 <? length m_objectMaterials)%nat then
    let (bReturn, material) := FindMaterial materialTag material m_objectMaterials in
    if bReturn then
      [ setVec3Value "material.diffuseColor" (OBJECT_MATERIAL.diffuseColor material);
        setVec3Value "material.specularColor" (OBJECT_MATERIAL.specularColor material);
        setFloatValue "material.shininess" (OBJECT_MATERIAL.shininess material) ]
    else []
  else [].

(** The first entry with a tag. *)
Definition first_material {F} (tag : String.string) (l : list (OBJECT_MATERIAL.t F))
  : option (OBJECT_MATERIAL.t F) :=
  find (fun m => String.eqb (OBJECT_MATERIAL.tag m) tag) l.

(** ** The scroll wheel (Source/ViewManager.cpp) *)

(** Addition of [float], which the picking code does not use. *)
Class FloatAdd (F : Type) := { fadd : F -> F -> F }.

#[export] Instance QFloatAdd : FloatAdd Q := { fadd := Qplus }.
#[export] Instance B32FloatAdd : FloatAdd b32 := { fadd := SFadd 24 128 }.

(** [Mouse_Scroll_Wheel_Callback]: [g_pCamera] is the [MovementSpeed] of
    the camera, if there is one; [yoffset] the scroll offset after its
    conversion to [float].  The result is the camera's [MovementSpeed]
    after the call. *)
Definition Mouse_Scroll_Wheel_Callback {F} `{FloatOps F} `{FloatAdd F}
    (g_pCamera : option F) (yoffset : F) : option F :=
  match g_pCamera with
  | None => None
  | Some MovementSpeed =>
      let newSpeed := fadd MovementSpeed yoffset in
      let newSpeed := if (newSpeed <? flit 1)%flt then flit 1 else newSpeed in
      let newSpeed := if (newSpeed >? flit 50)%flt then flit 50 else newSpeed in
      Some newSpeed
  end.

(** [std::isnan]. *)
Definition isnan (t : b32) : bool :=
  match t with
  | S754_nan => true
  | _ => false
  end.

(** *** Worked inputs *)

(** The table after two textures have been registered on a new scene
    manager. *)
Definition grass_bark_table : SceneManager :=
  {| m_textureIDs :=
       store 1 (TEXTURE_INFO.mk 2 "bark")
             (store 0 (TEXTURE_INFO.mk 1 "grass") (m_textureIDs new_SceneManager));
     m_loadedTextures := 2 |}.

(** Every file loads as an RGB image; [glGenTextures] answers 1. *)
Definition all_loaded (file : String.string) : option Z * Z := (Some 3%Z, 1%Z).

(** Every file loads but the canvas.jpg, which is missing. *)
Definition canvas_missing (file : String.string) : option Z * Z :=
  if String.eqb file "./textures/canvas.jpg" then (None, 0%Z) else (Some 3%Z, 1%Z).

(** A list of two materials, and a local that holds other values. *)
Definition two_materials : list (OBJECT_MATERIAL.t Q) :=
  [ OBJECT_MATERIAL.mk (Vec3 0.4 0.3 0.1) (Vec3 0.1 0.1 0.1) 0.3 "wood";
    OBJECT_MATERIAL.mk (Vec3 0.2 0.2 0.2) (Vec3 1 1 1) 95 "glass" ].
Definition stale_material : OBJECT_MATERIAL.t Q :=
  OBJECT_MATERIAL.mk (Vec3 7 7 7) (Vec3 8 8 8) 9 "stale".
(** ** Unfolding lemmas, valid for every arithmetic *)

Section Unfold.
Context {F : Type} {FO : FloatOps F}.
Local Open Scope flt_scope.
Implicit Types (r : Ray F) (box : AABB F).

Lemma slab_axis_fst r box axis tMin tMax :
  fst (slab_axis r box axis tMin tMax) =
  if parallel r axis then
    if outside r box axis then None else Some (tMin, tMax)
  else
    let tMin' := if t_near r box axis >? tMin then t_near r box axis else tMin in
    let tMax' := if t_far r box axis <? tMax then t_far r box axis else tMax in
    if tMin' >? tMax' then None else Some (tMin', tMax').
Proof.
  unfold slab_axis, parallel, outside, t_near, t_far.
  destruct (fabs ((dir r).[axis]) <? EPS); [reflexivity|].
  cbv zeta.
  destruct (flit 1 / (dir r).[axis] <? flit 0); reflexivity.
Qed.

Lemma slab_axis_snd r box axis tMin tMax :
  snd (slab_axis r box axis tMin tMax) =
  if parallel r axis then [] else [(dir r).[axis]].
Proof.
  unfold slab_axis, parallel.
  destruct (fabs ((dir r).[axis]) <? EPS); [reflexivity|].
  cbv zeta.
  destruct (flit 1 / (dir r).[axis] <? flit 0); reflexivity.
Qed.

Lemma slab_loop_nil r box tMin tMax :
  fst (slab_loop r box [] tMin tMax) = Some (tMin, tMax).
Proof. reflexivity. Qed.

Lemma slab_loop_cons r box axis rest tMin tMax :
  fst (slab_loop r box (axis :: rest) tMin tMax) =
  match fst (slab_axis r box axis tMin tMax) with
  | None => None
  | Some (tMin', tMax') => fst (slab_loop r box rest tMin' tMax')
  end.
Proof.
  simpl. destruct (slab_axis r box axis tMin tMax) as [[[a b]|] ds]; simpl.
  - destruct (slab_loop r box rest a b); reflexivity.
  - reflexivity.
Qed.

Lemma slab_loop_divs_cons r box axis rest tMin tMax :
  snd (slab_loop r box (axis :: rest) tMin tMax) =
  snd (slab_axis r box axis tMin tMax) ++
  match fst (slab_axis r box axis tMin tMax) with
  | None => []
  | Some (tMin', tMax') => snd (slab_loop r box rest tMin' tMax')
  end.
Proof.
  simpl. destruct (slab_axis r box axis tMin tMax) as [[[a b]|] ds]; simpl.
  - destruct (slab_loop r box rest a b); reflexivity.
  - now rewrite app_nil_r.
Qed.

Lemma rayAabbSlab_unfold r box :
  rayAabbSlab r box =
  if inside r box then Some (flit 0)
  else match fst (slab_loop r box [0; 1; 2]%nat (flit 0) FLT_MAX) with
       | None => None
       | Some (tMin, tMax) => slab_result tMin tMax
       end.
Proof.
  unfold rayAabbSlab, rayAabbSlab_run.
  destruct (inside r box); [reflexivity|].
  destruct (slab_loop r box [0; 1; 2]%nat (flit 0) FLT_MAX) as [[[a b]|] ds]; reflexivity.
Qed.

Lemma divisors_unfold r box :
  divisors r box =
  if inside r box then []
  else snd (slab_loop r box [0; 1; 2]%nat (flit 0) FLT_MAX).
Proof.
  unfold divisors, rayAabbSlab_run.
  destruct (inside r box); [reflexivity|].
  destruct (slab_loop r box [0; 1; 2]%nat (flit 0) FLT_MAX) as [[[a b]|] ds]; reflexivity.
Qed.

Lemma inside_axes r box :
  inside r box = true <-> origin_within r box.
Proof.
  unfold inside, origin_within. rewrite !andb_true_iff. split.
  - intros [[[[[A B] C] D] E] G] [|[|axis]]; simpl; auto.
  - intro H.
    pose proof (H 0%nat) as [A B]. pose proof (H 1%nat) as [C D].
    pose proof (H 2%nat) as [E G]. simpl in *. tauto.
Qed.

(** The origin-inside test decides the result alone. *)
Lemma inside_hit r box :
  origin_within r box -> rayAabbSlab r box = Some (flit 0).
Proof.
  intro H. apply inside_axes in H.
  rewrite rayAabbSlab_unfold, H. reflexivity.
Qed.

(** A skipped axis whose range check fails ends the loop with a miss,
    wherever it stands among the axes. *)
Lemma slab_loop_parallel_outside r box axis axes : forall tMin tMax,
  In axis axes ->
  parallel r axis = true -> outside r box axis = true ->
  fst (slab_loop r box axes tMin tMax) = None.
Proof.
  induction axes as [|a rest IH]; intros tMin tMax I P O; [destruct I|].
  rewrite slab_loop_cons.
  destruct (fst (slab_axis r box a tMin tMax)) as [[a1 b1]|] eqn:S1;
    [|reflexivity].
  destruct I as [->|I]; [|now apply IH].
  rewrite slab_axis_fst, P, O in S1. discriminate.
Qed.

(** Every denominator of a division passed the EPS guard. *)
Lemma slab_loop_divs_checked r box axes : forall tMin tMax,
  Forall (fun d => (fabs d <? EPS) = false) (snd (slab_loop r box axes tMin tMax)).
Proof.
  induction axes as [|axis rest IH]; intros tMin tMax.
  - constructor.
  - rewrite slab_loop_divs_cons, slab_axis_snd. apply Forall_app. split.
    + unfold parallel. destruct (fabs ((dir r).[axis]) <? EPS) eqn:P;
        constructor; [exact P|constructor].
    + destruct (fst (slab_axis r box axis tMin tMax)) as [[a b]|];
        [apply IH|constructor].
Qed.

Lemma divisors_checked r box :
  Forall (fun d => (fabs d <? EPS) = false) (divisors r box).
Proof.
  rewrite divisors_unfold. destruct (inside r box); [constructor|].
  apply slab_loop_divs_checked.
Qed.

End Unfold.

(** ** Exact rational arithmetic: comparisons as propositions *)

Section QComparisons.
Local Open Scope Q_scope.

Lemma fltb_true (a b : Q) : (a <? b)%flt = true <-> a < b.
Proof.
  cbn. rewrite negb_true_iff. split; intro H.
  - apply Qnot_le_lt. intro L. apply Qle_bool_iff in L. congruence.
  - destruct (Qle_bool b a) eqn:E; [|reflexivity].
    apply Qle_bool_iff in E. exfalso. apply (Qlt_not_le _ _ H E).
Qed.

Lemma fltb_false (a b : Q) : (a <? b)%flt = false <-> b <= a.
Proof.
  cbn. rewrite negb_false_iff. apply Qle_bool_iff.
Qed.

Lemma fleb_true (a b : Q) : (a <=? b)%flt = true <-> a <= b.
Proof. apply Qle_bool_iff. Qed.

Lemma fleb_false (a b : Q) : (a <=? b)%flt = false <-> b < a.
Proof.
  cbn. split; intro H.
  - apply Qnot_le_lt. intro L. apply Qle_bool_iff in L. congruence.
  - destruct (Qle_bool a b) eqn:E; [|reflexivity].
    apply Qle_bool_iff in E. exfalso. apply (Qlt_not_le _ _ H E).
Qed.

End QComparisons.

(** Replace every comparison of the rational instance in sight by the
    order fact it decides. *)
Ltac cmp_split :=
  repeat match goal with
    | H : context [@fltb Q QFloat ?a ?b] |- _ =>
        let E := fresh "C" in
        destruct (@fltb Q QFloat a b) eqn:E;
        [apply fltb_true in E | apply fltb_false in E]
    | |- context [@fltb Q QFloat ?a ?b] =>
        let E := fresh "C" in
        destruct (@fltb Q QFloat a b) eqn:E;
        [apply fltb_true in E | apply fltb_false in E]
    | H : context [@fleb Q QFloat ?a ?b] |- _ =>
        let E := fresh "C" in
        destruct (@fleb Q QFloat a b) eqn:E;
        [apply fleb_true in E | apply fleb_false in E]
    | |- context [@fleb Q QFloat ?a ?b] =>
        let E := fresh "C" in
        destruct (@fleb Q QFloat a b) eqn:E;
        [apply fleb_true in E | apply fleb_false in E]
    end.

Ltac qnorm := cbn [fsub fmul fdiv flit fabs FLT_MAX QFloat] in *.

(** ** The order laws of the two arithmetics *)

Lemma QFloat_order : FloatOrder Q.
Proof.
  split; unfold ordered.
  - intros a b H. apply fltb_true in H. apply fleb_true. lra.
  - intros a b c H G. apply fleb_true in H, G. apply fleb_true. lra.
  - intros a b H. apply fltb_true in H. apply fleb_false. lra.
  - intros a b _ _ H. apply fltb_false in H. now apply fleb_true.
  - intros a b _. split; apply fleb_true; lra.
  - reflexivity.
Qed.

#[export] Existing Instance QFloat_order.

(** [SFcompare] orders the values that are not NaN by sign, then
    exponent, then mantissa; the laws follow by cases. *)
Ltac sf_destruct :=
  repeat match goal with
    | x : spec_float |- _ => destruct x as [[|]|[|]| |[|] ? ?]
    end.

Ltac cmp_destruct :=
  repeat match goal with
    | H : context [Z.compare ?a ?b] |- _ => destruct (Z.compare_spec a b)
    | |- context [Z.compare ?a ?b] => destruct (Z.compare_spec a b)
    | H : context [Pos.compare_cont Eq ?a ?b] |- _ =>
        change (Pos.compare_cont Eq a b) with (Pos.compare a b) in *;
        destruct (Pos.compare_spec a b)
    | |- context [Pos.compare_cont Eq ?a ?b] =>
        change (Pos.compare_cont Eq a b) with (Pos.compare a b) in *;
        destruct (Pos.compare_spec a b)
    end.

Ltac sf_order :=
  intros; sf_destruct; unfold SFltb, SFleb in *; cbn [SFcompare] in *;
  try discriminate; try reflexivity; try (split; reflexivity);
  cmp_destruct; cbn [CompOpp] in *; subst;
  try discriminate; try reflexivity; try (split; reflexivity); try lia.

Lemma SFltb_SFleb (a b : spec_float) : SFltb a b = true -> SFleb a b = true.
Proof. sf_order. Qed.

Lemma SFleb_trans (a b c : spec_float) :
  SFleb a b = true -> SFleb b c = true -> SFleb a c = true.
Proof. sf_order. Qed.

Lemma SFltb_not_ge (a b : spec_float) : SFltb a b = true -> SFleb b a = false.
Proof. sf_order. Qed.

Lemma SFleb_total (a b : spec_float) :
  SFleb a a = true -> SFleb b b = true -> SFltb a b = false -> SFleb b a = true.
Proof. sf_order. Qed.

Lemma SFleb_ordered (a b : spec_float) :
  SFleb a b = true -> SFleb a a = true /\ SFleb b b = true.
Proof. sf_order. Qed.

Lemma B32Float_order : FloatOrder b32.
Proof.
  split; unfold ordered; cbn [fltb fleb B32Float].
  - apply SFltb_SFleb.
  - apply SFleb_trans.
  - apply SFltb_not_ge.
  - apply SFleb_total.
  - apply SFleb_ordered.
  - reflexivity.
Qed.

#[export] Existing Instance B32Float_order.

(** ** What follows from the order laws alone *)

Section Lawful.
Context {F : Type} {FO : FloatOps F} {FL : FloatOrder F}.
Local Open Scope flt_scope.
Implicit Types (r : Ray F) (box : AABB F) (a b t s : F).

Lemma fltb_ordered a b : (a <? b) = true -> ordered a /\ ordered b.
Proof. intro H. apply fleb_ordered. now apply fltb_fleb. Qed.

Lemma flt_le_trans a b c : (a <? b) = true -> (b <=? c) = true -> (a <? c) = true.
Proof.
  intros H G. destruct (a <? c) eqn:E; [reflexivity|exfalso].
  destruct (fltb_ordered _ _ H) as [Oa _].
  destruct (fleb_ordered _ _ G) as [_ Oc].
  pose proof (fleb_total _ _ Oa Oc E) as K.
  pose proof (fleb_trans _ _ _ G K) as J.
  rewrite (fltb_not_ge _ _ H) in J. discriminate.
Qed.

Lemma flt_trans a b c : (a <? b) = true -> (b <? c) = true -> (a <? c) = true.
Proof. intros H G. apply (flt_le_trans _ _ _ H). now apply fltb_fleb. Qed.

Lemma fle_not_gt a b : (a <=? b) = true -> (b <? a) = false.
Proof.
  intro H. destruct (b <? a) eqn:E; [|reflexivity].
  rewrite (fltb_not_ge _ _ E) in H. discriminate.
Qed.

Lemma zero_ordered : ordered (flit 0 : F).
Proof. exact (proj1 (fleb_ordered _ _ zero_le_FLT_MAX)). Qed.

Lemma FLT_MAX_ordered : ordered (FLT_MAX : F).
Proof. exact (proj2 (fleb_ordered _ _ zero_le_FLT_MAX)). Qed.

(** *** [tMin] never drops below 0 *)

Lemma slab_axis_nonneg r box axis tMin tMax a b :
  fst (slab_axis r box axis tMin tMax) = Some (a, b) ->
  (flit 0 <=? tMin) = true -> (flit 0 <=? a) = true.
Proof.
  rewrite slab_axis_fst. cbv zeta. intros S Z.
  destruct (parallel r axis).
  - destruct (outside r box axis); [discriminate|].
    injection S as <- <-. exact Z.
  - destruct (tMin <? t_near r box axis) eqn:N;
      match type of S with
      | (if ?c then _ else _) = _ => destruct c; [discriminate|]
      end; injection S as <- <-; [|exact Z].
    apply (fleb_trans _ _ _ Z). now apply fltb_fleb.
Qed.

Lemma slab_loop_nonneg r box axes : forall tMin tMax a b,
  fst (slab_loop r box axes tMin tMax) = Some (a, b) ->
  (flit 0 <=? tMin) = true -> (flit 0 <=? a) = true.
Proof.
  induction axes as [|axis rest IH]; intros tMin tMax a b.
  - rewrite slab_loop_nil. intros E Z. injection E as <- <-. exact Z.
  - rewrite slab_loop_cons.
    destruct (fst (slab_axis r box axis tMin tMax)) as [[a1 b1]|] eqn:S1;
      [|discriminate].
    intros E Z. apply (IH _ _ _ _ E). now apply (slab_axis_nonneg _ _ _ _ _ _ _ S1).
Qed.

Lemma hit_nonneg r box t : rayAabbSlab r box = Some t -> (flit 0 <=? t) = true.
Proof.
  rewrite rayAabbSlab_unfold.
  destruct (inside r box).
  - intro E. injection E as <-. exact zero_ordered.
  - destruct (fst (slab_loop r box [0; 1; 2]%nat (flit 0) FLT_MAX))
      as [[a b]|] eqn:L; [|discriminate].
    apply slab_loop_nonneg in L; [|exact zero_ordered].
    unfold slab_result. rewrite L. intro E. injection E as <-. exact L.
Qed.

Lemma hit_ordered r box t : rayAabbSlab r box = Some t -> ordered t.
Proof. intro H. exact (proj2 (fleb_ordered _ _ (hit_nonneg _ _ _ H))). Qed.

(** *** An axis out of range rules the inside test out *)

Lemma outside_not_inside r box axis :
  outside r box axis = true -> inside r box = false.
Proof.
  intro O. destruct (inside r box) eqn:I; [|reflexivity].
  apply inside_axes in I. destruct (I axis) as [A B].
  unfold outside in O. apply orb_true_iff in O.
  destruct O as [O|O]; apply fltb_not_ge in O; congruence.
Qed.

(** *** A ray that is parallel to every axis *)

Lemma slab_loop_divs_parallel r box axes : forall tMin tMax,
  (forall axis, parallel r axis = true) ->
  snd (slab_loop r box axes tMin tMax) = [].
Proof.
  induction axes as [|axis rest IH]; intros tMin tMax P; [reflexivity|].
  rewrite slab_loop_divs_cons, slab_axis_snd, P. simpl.
  destruct (fst (slab_axis r box axis tMin tMax)) as [[a b]|]; auto.
Qed.

(** With every direction component under the guard nothing is divided;
    the origin within the box is a hit at 0, an axis out of range is a
    miss. *)
Lemma parallel_to_all_axes r box :
  (forall axis, parallel r axis = true) ->
  divisors r box = [] /\
  (origin_within r box -> rayAabbSlab r box = Some (flit 0)) /\
  (forall axis, (axis < 3)%nat -> outside r box axis = true ->
                rayAabbSlab r box = None).
Proof.
  intro P. split; [|split].
  - rewrite divisors_unfold. destruct (inside r box); [reflexivity|].
    now apply slab_loop_divs_parallel.
  - apply inside_hit.
  - intros axis A O.
    rewrite rayAabbSlab_unfold, (outside_not_inside _ _ _ O).
    rewrite (slab_loop_parallel_outside r box axis); auto.
    simpl. lia.
Qed.

(** The two branches after the loop that need a negative [tMin]. *)
Lemma slab_result_behind (tMin tMax : F) :
  (flit 0 <=? tMin) = false ->
  slab_result tMin tMax = if flit 0 <=? tMax then Some tMax else None.
Proof. intro N. unfold slab_result. now rewrite N. Qed.

(** *** The scan of the picker *)

Implicit Types (c o : ObjectBounds F) (objs : list (ObjectBounds F)).

(** One step of the scan: a candidate replaces the current best exactly
    when it is hit strictly nearer. *)
Lemma pick_loop_cons r o rest closestId closestT :
  pick_loop r (o :: rest) closestId closestT =
  match rayAabbSlab r (bounds o) with
  | Some t => if t <? closestT
              then pick_loop r rest (id o) t
              else pick_loop r rest closestId closestT
  | None => pick_loop r rest closestId closestT
  end.
Proof.
  cbn [pick_loop]. destruct (rayAabbSlab r (bounds o)) as [t|] eqn:H; [|reflexivity].
  now rewrite (hit_nonneg _ _ _ H).
Qed.

(** No candidate undercuts the current best: the scan keeps it. *)
Lemma pick_loop_keep r objs : forall closestId closestT,
  (forall o s, In o objs -> hit_at r o s -> (s <? closestT) = false) ->
  pick_loop r objs closestId closestT = closestId.
Proof.
  induction objs as [|o rest IH]; intros closestId closestT K; [reflexivity|].
  rewrite pick_loop_cons.
  assert (K' : forall o' s, In o' rest -> hit_at r o' s -> (s <? closestT) = false)
    by (intros o' s I; apply K; now right).
  destruct (rayAabbSlab r (bounds o)) as [t|] eqn:H; [|now apply IH].
  rewrite (K o t (or_introl eq_refl) H). now apply IH.
Qed.

(** The first candidate at the minimal distance wins. *)
Lemma pick_loop_first_min r c l2 t l1 : forall closestId closestT,
  hit_at r c t -> (t <? closestT) = true ->
  (forall o s, In o l1 -> hit_at r o s -> (t <? s) = true) ->
  (forall o s, In o l2 -> hit_at r o s -> (t <=? s) = true) ->
  pick_loop r (l1 ++ c :: l2) closestId closestT = id c.
Proof.
  induction l1 as [|o rest IH]; intros closestId closestT H L B A.
  - simpl app. rewrite pick_loop_cons. unfold hit_at in H. rewrite H, L.
    apply pick_loop_keep. intros o s I Hs. apply fle_not_gt. now apply (A o).
  - change ((o :: rest) ++ c :: l2) with (o :: (rest ++ c :: l2)).
    rewrite pick_loop_cons.
    assert (B' : forall o' s, In o' rest -> hit_at r o' s -> (t <? s) = true)
      by (intros o' s I; apply B; now right).
    destruct (rayAabbSlab r (bounds o)) as [t0|] eqn:H0; [|now apply IH].
    destruct (t0 <? closestT); apply IH; auto.
    apply (B o t0); [now left|exact H0].
Qed.

(** What the scan returns, from any state of its two locals. *)
Lemma pick_loop_spec r objs : forall closestId closestT,
  ordered closestT ->
  (pick_loop r objs closestId closestT = closestId /\
   forall o s, In o objs -> hit_at r o s -> (s <? closestT) = false) \/
  (exists l1 c l2 t,
      objs = l1 ++ c :: l2 /\
      pick_loop r objs closestId closestT = id c /\
      hit_at r c t /\ (t <? closestT) = true /\
      (forall o s, In o l1 -> hit_at r o s -> (t <? s) = true) /\
      (forall o s, In o l2 -> hit_at r o s -> (t <=? s) = true)).
Proof.
  induction objs as [|o rest IH]; intros closestId closestT OT.
  - left. split; [reflexivity|]. intros o s [].
  - rewrite pick_loop_cons.
    assert (same : forall s t0, rayAabbSlab r (bounds o) = Some t0 ->
                     hit_at r o s -> s = t0)
      by (unfold hit_at; intros s t0 E Hs; congruence).
    destruct (rayAabbSlab r (bounds o)) as [t0|] eqn:H0.
    + pose proof (hit_ordered _ _ _ H0) as O0.
      destruct (t0 <? closestT) eqn:L.
      * right.
        destruct (IH (id o) t0 O0)
          as [[E K]|(l1 & c & l2 & t & -> & E & H & Lt & B & A)].
        -- exists [], o, rest, t0.
           split; [reflexivity|]. split; [exact E|]. split; [exact H0|].
           split; [exact L|]. split.
           ++ intros o' s [].
           ++ intros o' s I Hs.
              apply fleb_total;
                [exact (hit_ordered _ _ _ Hs)|exact O0|exact (K o' s I Hs)].
        -- exists (o :: l1), c, l2, t.
           split; [reflexivity|]. split; [exact E|]. split; [exact H|].
           split; [exact (flt_trans _ _ _ Lt L)|]. split; [|exact A].
           intros o' s [<-|I] Hs; [|now apply (B o')].
           now rewrite (same s t0 eq_refl Hs).
      * destruct (IH closestId closestT OT)
          as [[E K]|(l1 & c & l2 & t & -> & E & H & Lt & B & A)].
        -- left. split; [exact E|].
           intros o' s [<-|I] Hs; [|now apply (K o')].
           now rewrite (same s t0 eq_refl Hs).
        -- right. exists (o :: l1), c, l2, t.
           split; [reflexivity|]. split; [exact E|]. split; [exact H|].
           split; [exact Lt|]. split; [|exact A].
           intros o' s [<-|I] Hs; [|now apply (B o')].
           rewrite (same s t0 eq_refl Hs).
           apply (flt_le_trans _ _ _ Lt).
           apply fleb_total; [exact O0|exact OT|exact L].
    + destruct (IH closestId closestT OT)
        as [[E K]|(l1 & c & l2 & t & -> & E & H & Lt & B & A)].
      * left. split; [exact E|].
        intros o' s [<-|I] Hs; [|now apply (K o')].
        unfold hit_at in Hs. congruence.
      * right. exists (o :: l1), c, l2, t.
        split; [reflexivity|]. split; [exact E|]. split; [exact H|].
        split; [exact Lt|]. split; [|exact A].
        intros o' s [<-|I] Hs; [|now apply (B o')].
        unfold hit_at in Hs. congruence.
Qed.

End Lawful.

(** ** Exact rational arithmetic: the slab loop *)

Section QSlab.
Local Open Scope Q_scope.
Implicit Types (r : Ray Q) (box : AABB Q).

Lemma EPS_pos : 0 < (EPS : Q).
Proof. reflexivity. Qed.

Lemma FLT_MAX_pos : 0 < (FLT_MAX : Q).
Proof. reflexivity. Qed.

(** Sign of the reciprocal the loop multiplies by. *)
Lemma inv_pos (d : Q) : 0 < d -> 0 < 1 / d.
Proof.
  intro H. unfold Qdiv. rewrite Qmult_1_l. now apply Qinv_lt_0_compat.
Qed.

Lemma inv_neg (d : Q) : d < 0 -> 1 / d < 0.
Proof.
  intro H. unfold Qdiv. rewrite Qmult_1_l.
  assert (P : 0 < / (- d)).
  { apply Qinv_lt_0_compat. lra. }
  assert (E : / (- d) == - / d).
  { field. intro Z. rewrite Z in H. discriminate. }
  rewrite E in P. lra.
Qed.

Lemma not_parallel_cases (d : Q) : EPS <= Qabs d -> d < 0 \/ 0 < d.
Proof.
  intro H. pose proof EPS_pos.
  destruct (Qlt_le_dec d 0) as [L|L]; [now left|right].
  rewrite Qabs_pos in H by assumption. lra.
Qed.

(** *** The two plane parameters of one axis *)

Lemma within_near_far r box axis :
  (min box).[axis] <= (origin r).[axis] <= (max box).[axis] ->
  t_near r box axis <= 0 /\ 0 <= t_far r box axis.
Proof.
  intros [L U]. unfold t_near, t_far. cbv zeta. qnorm.
  set (i := 1 / (dir r).[axis]) in *.
  cmp_split; split; nra.
Qed.

Lemma near_far_enclosing r box box' axis :
  (min box').[axis] <= (min box).[axis] ->
  (max box).[axis] <= (max box').[axis] ->
  t_near r box' axis <= t_near r box axis /\
  t_far r box axis <= t_far r box' axis.
Proof.
  intros L U. unfold t_near, t_far. cbv zeta. qnorm.
  set (i := 1 / (dir r).[axis]) in *.
  cmp_split; split; nra.
Qed.

(** *** Invariants of the slab loop *)

Lemma slab_axis_bounds r box axis tMin tMax a b :
  fst (slab_axis r box axis tMin tMax) = Some (a, b) ->
  tMin <= a /\ b <= tMax /\ (tMin <= tMax -> a <= b).
Proof.
  rewrite slab_axis_fst. cbv zeta.
  destruct (parallel r axis).
  - destruct (outside r box axis); [discriminate|].
    intro E. injection E as <- <-. repeat split; lra.
  - cmp_split; try discriminate; intro E; injection E as <- <-;
      repeat split; lra.
Qed.

Lemma slab_loop_bounds r box axes : forall tMin tMax a b,
  fst (slab_loop r box axes tMin tMax) = Some (a, b) ->
  tMin <= a /\ b <= tMax /\ (tMin <= tMax -> a <= b).
Proof.
  induction axes as [|axis rest IH]; intros tMin tMax a b.
  - rewrite slab_loop_nil. intro E. injection E as <- <-. repeat split; lra.
  - rewrite slab_loop_cons.
    destruct (fst (slab_axis r box axis tMin tMax)) as [[a1 b1]|] eqn:S1;
      [|discriminate].
    intro E. apply slab_axis_bounds in S1. apply IH in E.
    destruct S1 as (A1 & B1 & C1), E as (A2 & B2 & C2).
    repeat split; try lra; intro L; apply C2; auto.
Qed.

(** Whenever the loop runs to its end, the result is a hit at [tMin]:
    the branch [tNear = tMax] is never taken. *)
Lemma slab_result_tMin (tMin tMax : Q) :
  0 <= tMin -> slab_result tMin tMax = Some tMin.
Proof.
  intro P. unfold slab_result. qnorm. cmp_split; try reflexivity; lra.
Qed.

Lemma rayAabbSlab_cases r box :
  (origin_within r box /\ rayAabbSlab r box = Some 0) \/
  (inside r box = false /\
   fst (slab_loop r box [0; 1; 2]%nat 0 FLT_MAX) = None /\
   rayAabbSlab r box = None) \/
  (exists tMin tMax,
     inside r box = false /\
     fst (slab_loop r box [0; 1; 2]%nat 0 FLT_MAX) = Some (tMin, tMax) /\
     0 <= tMin <= tMax /\ tMax <= FLT_MAX /\
     rayAabbSlab r box = Some tMin).
Proof.
  rewrite rayAabbSlab_unfold. qnorm.
  destruct (inside r box) eqn:I.
  - left. split; [now apply inside_axes|reflexivity].
  - right.
    destruct (fst (slab_loop r box [0; 1; 2]%nat 0 FLT_MAX_Q)) as [[a b]|] eqn:L.
    + right. exists a, b.
      apply slab_loop_bounds in L. destruct L as (A & B & C).
      assert (0 <= FLT_MAX_Q) by (apply Qlt_le_weak, FLT_MAX_pos).
      repeat split; auto. now apply slab_result_tMin.
    + left. auto.
Qed.

End QSlab.

(** ** Enlarging the box *)

Section QEnclosing.
Local Open Scope Q_scope.
Implicit Types (r : Ray Q) (box : AABB Q).

Lemma outside_enclosing r box box' axis :
  (min box').[axis] <= (min box).[axis] ->
  (max box).[axis] <= (max box').[axis] ->
  outside r box axis = false -> outside r box' axis = false.
Proof.
  intros L U. unfold outside. rewrite !orb_false_iff.
  intros [A B]. apply fltb_false in A, B.
  split; apply fltb_false; lra.
Qed.

Lemma slab_axis_enclosing r box box' axis tMin tMax tMin' tMax' a b :
  (min box').[axis] <= (min box).[axis] ->
  (max box).[axis] <= (max box').[axis] ->
  tMin' <= tMin -> tMax <= tMax' ->
  fst (slab_axis r box axis tMin tMax) = Some (a, b) ->
  exists a' b',
    fst (slab_axis r box' axis tMin' tMax') = Some (a', b') /\
    a' <= a /\ b <= b'.
Proof.
  intros L U Lt Ut. rewrite !slab_axis_fst. cbv zeta.
  destruct (parallel r axis).
  - destruct (outside r box axis) eqn:O; [discriminate|].
    rewrite (outside_enclosing r box box' axis L U O).
    intro E. injection E as <- <-. eauto.
  - destruct (near_far_enclosing r box box' axis L U) as [N G].
    cmp_split; try discriminate; intro E; injection E as <- <-;
      try (eexists; eexists; split; [reflexivity|split; lra]);
      exfalso; lra.
Qed.

Lemma slab_loop_enclosing r box box' axes : forall tMin tMax tMin' tMax' a b,
  (forall axis, (min box').[axis] <= (min box).[axis]) ->
  (forall axis, (max box).[axis] <= (max box').[axis]) ->
  tMin' <= tMin -> tMax <= tMax' ->
  fst (slab_loop r box axes tMin tMax) = Some (a, b) ->
  exists a' b',
    fst (slab_loop r box' axes tMin' tMax') = Some (a', b') /\
    a' <= a /\ b <= b'.
Proof.
  induction axes as [|axis rest IH]; intros tMin tMax tMin' tMax' a b L U Lt Ut.
  - rewrite !slab_loop_nil. intro E. injection E as <- <-. eauto.
  - rewrite !slab_loop_cons.
    destruct (fst (slab_axis r box axis tMin tMax)) as [[a1 b1]|] eqn:S1;
      [|discriminate].
    destruct (slab_axis_enclosing r box box' axis _ _ _ _ _ _ (L axis) (U axis) Lt Ut S1)
      as (a1' & b1' & -> & La & Ub).
    now apply IH.
Qed.

End QEnclosing.

(** ** The formulation of the plan against the implemented one *)

Section PlanUnfold.
Context {F : Type} {FO : FloatOps F}.
Local Open Scope flt_scope.
Implicit Types (r : Ray F) (box : AABB F).

Lemma plan_axis_unfold r box i tmin tmax :
  plan_axis r box i tmin tmax =
  if parallel r i then
    if outside r box i then None else Some (tmin, tmax)
  else
    let tmin' := if tmin <? plan_near r box i then plan_near r box i else tmin in
    let tmax' := match tmax with
                 | None => plan_far r box i
                 | Some m => if plan_far r box i <? m then plan_far r box i else m
                 end in
    if tmin' >? tmax' then None else Some (tmin', Some tmax').
Proof.
  unfold plan_axis, parallel, outside, plan_near, plan_far. cbv zeta.
  destruct (fabs ((dir r).[i]) <? EPS); [reflexivity|].
  destruct (((max box).[i] - (origin r).[i]) * (flit 1 / (dir r).[i])
            <? ((min box).[i] - (origin r).[i]) * (flit 1 / (dir r).[i]));
    reflexivity.
Qed.

End PlanUnfold.

Section QPlan.
Local Open Scope Q_scope.
Implicit Types (r : Ray Q) (box : AABB Q).

Lemma plan_near_far r box i :
  (min box).[i] <= (max box).[i] ->
  plan_near r box i == t_near r box i /\ plan_far r box i == t_far r box i.
Proof.
  intro V. unfold plan_near, plan_far, t_near, t_far. cbv zeta. qnorm.
  set (inv := 1 / (dir r).[i]) in *.
  set (lo := (min box).[i]) in *. set (hi := (max box).[i]) in *.
  set (o := (origin r).[i]) in *.
  cmp_split; split; try reflexivity; try (exfalso; nra).
  - assert (lo == hi) as -> by nra. reflexivity.
  - assert (lo == hi) as -> by nra. reflexivity.
Qed.

Lemma plan_axis_lower r box i tmin tmax pm pmax :
  plan_axis r box i tmin tmax = Some (pm, pmax) -> tmin <= pm.
Proof.
  rewrite plan_axis_unfold. cbv zeta.
  destruct (parallel r i).
  - destruct (outside r box i); [discriminate|].
    intro E. injection E as <- <-. lra.
  - destruct tmax as [m|]; cmp_split; try discriminate;
      intro E; injection E as <- <-; lra.
Qed.

Lemma plan_loop_lower r box axes : forall tmin tmax pm pmax,
  plan_loop r box axes tmin tmax = Some (pm, pmax) -> tmin <= pm.
Proof.
  induction axes as [|i rest IH]; intros tmin tmax pm pmax; simpl.
  - intro E. injection E as <- <-. lra.
  - destruct (plan_axis r box i tmin tmax) as [[pm1 pmax1]|] eqn:P;
      [|discriminate].
    intro E. apply plan_axis_lower in P. apply IH in E. lra.
Qed.

(** One axis of the two loops, started from matching locals. *)
Lemma axis_related r box i tMin tMax tmin tmax :
  (min box).[i] <= (max box).[i] ->
  tMin == tmin -> bound_matches tMax tmax -> tMin <= tMax ->
  match plan_axis r box i tmin tmax with
  | None => fst (slab_axis r box i tMin tMax) = None
  | Some (pm, pmax) =>
      (pm <= FLT_MAX ->
       exists a b, fst (slab_axis r box i tMin tMax) = Some (a, b) /\
                   a == pm /\ bound_matches b pmax /\ a <= b) /\
      (FLT_MAX < pm -> fst (slab_axis r box i tMin tMax) = None)
  end.
Proof.
  intros V Em [Bu Bm] Le.
  rewrite plan_axis_unfold, slab_axis_fst. cbv zeta.
  destruct (parallel r i).
  - destruct (outside r box i); [reflexivity|].
    split.
    + intros _. exists tMin, tMax. unfold bound_matches. auto.
    + intro G. exfalso. lra.
  - destruct (plan_near_far r box i V) as [En Ef].
    set (pn := plan_near r box i) in *. set (pf := plan_far r box i) in *.
    set (n := t_near r box i) in *. set (f := t_far r box i) in *.
    unfold bound_matches.
    destruct tmax as [m|]; cmp_split;
      try reflexivity; try (exfalso; lra);
      (split;
       [ intro G;
         first [ exfalso; lra
               | eexists; eexists; split; [reflexivity|];
                 repeat split; lra ]
       | intro G; first [ reflexivity | exfalso; lra ] ]).
Qed.

Lemma loops_related r box axes : forall tMin tMax tmin tmax,
  valid_box box ->
  tMin == tmin -> bound_matches tMax tmax -> tMin <= tMax ->
  match plan_loop r box axes tmin tmax with
  | None => fst (slab_loop r box axes tMin tMax) = None
  | Some (pm, _) =>
      (pm <= FLT_MAX ->
       exists a b, fst (slab_loop r box axes tMin tMax) = Some (a, b) /\ a == pm) /\
      (FLT_MAX < pm -> fst (slab_loop r box axes tMin tMax) = None)
  end.
Proof.
  induction axes as [|i rest IH]; intros tMin tMax tmin tmax V Em Bm Le.
  - simpl plan_loop. rewrite slab_loop_nil. split.
    + intros _. eauto.
    + intro G. destruct Bm as [Bu _]. exfalso. lra.
  - simpl plan_loop. rewrite slab_loop_cons.
    assert (Vi : (min box).[i] <= (max box).[i]) by apply fleb_true, V.
    pose proof (axis_related r box i _ _ _ _ Vi Em Bm Le) as A.
    destruct (plan_axis r box i tmin tmax) as [[pm1 pmax1]|] eqn:P.
    + destruct A as [A1 A2].
      destruct (Qlt_le_dec FLT_MAX pm1) as [G|G].
      * rewrite (A2 G).
        destruct (plan_loop r box rest pm1 pmax1) as [[pm pmax]|] eqn:PL;
          [|reflexivity].
        apply plan_loop_lower in PL.
        split; [intro; exfalso; lra|reflexivity].
      * destruct (A1 G) as (a & b & -> & Ea & Bb & Lab).
        now apply IH.
    + now rewrite A.
Qed.

Lemma plan_within_near_far r box i :
  (min box).[i] <= (origin r).[i] <= (max box).[i] ->
  plan_near r box i <= 0 /\ 0 <= plan_far r box i.
Proof.
  intros [L U]. unfold plan_near, plan_far. cbv zeta. qnorm.
  set (inv := 1 / (dir r).[i]) in *.
  destruct (Qlt_le_dec inv 0); cmp_split; split; nra.
Qed.

(** From an origin inside the box the plan never raises [tmin]. *)
Lemma plan_loop_within r box axes : forall tmax,
  origin_within r box -> bound_nonneg tmax ->
  exists pmax, plan_loop r box axes 0 tmax = Some (0, pmax).
Proof.
  induction axes as [|i rest IH]; intros tmax W B; simpl plan_loop.
  - eauto.
  - rewrite plan_axis_unfold. cbv zeta.
    destruct (W i) as [Wl Wu]. apply fleb_true in Wl, Wu.
    destruct (parallel r i).
    + assert (O : outside r box i = false).
      { unfold outside. apply orb_false_iff. split; apply fltb_false; lra. }
      rewrite O. now apply IH.
    + destruct (plan_within_near_far r box i (conj Wl Wu)) as [Nn Nf].
      destruct tmax as [m|]; simpl in B; cmp_split;
        try (exfalso; lra); apply IH; simpl; auto.
Qed.

End QPlan.

(** ** A box behind the origin, and the guard of the division *)

Section QBehind.
Local Open Scope Q_scope.
Implicit Types (r : Ray Q) (box : AABB Q).

Lemma slab_loop_behind r box axis axes : forall tMin tMax,
  In axis axes -> parallel r axis = false -> t_far r box axis < 0 ->
  0 <= tMin ->
  fst (slab_loop r box axes tMin tMax) = None.
Proof.
  induction axes as [|a rest IH]; intros tMin tMax I P B Z; [destruct I|].
  rewrite slab_loop_cons.
  destruct (fst (slab_axis r box a tMin tMax)) as [[a1 b1]|] eqn:S1;
    [|reflexivity].
  destruct I as [->|I].
  - exfalso. rewrite slab_axis_fst, P in S1. cbv zeta in S1.
    revert S1. cmp_split; try discriminate; intro E; injection E as <- <-; lra.
  - apply slab_axis_bounds in S1. apply IH; auto. lra.
Qed.

(** What a completed run of the loop says about each axis it visited. *)
Lemma slab_loop_axes r box axes : forall tMin tMax a b,
  fst (slab_loop r box axes tMin tMax) = Some (a, b) ->
  forall axis, In axis axes ->
    (parallel r axis = true /\ outside r box axis = false) \/
    (parallel r axis = false /\ t_near r box axis <= a /\ b <= t_far r box axis).
Proof.
  induction axes as [|i rest IH]; intros tMin tMax a b S axis I; [destruct I|].
  rewrite slab_loop_cons in S.
  destruct (fst (slab_axis r box i tMin tMax)) as [[a1 b1]|] eqn:S1;
    [|discriminate].
  destruct I as [->|I]; [|now apply (IH a1 b1 a b S)].
  apply slab_loop_bounds in S. destruct S as (A & B & _).
  rewrite slab_axis_fst in S1. cbv zeta in S1.
  destruct (parallel r axis).
  - left. destruct (outside r box axis); [discriminate|auto].
  - right. split; [reflexivity|].
    revert S1. cmp_split; try discriminate; intro E; injection E as <- <-;
      split; lra.
Qed.

(** The upper bound a completed run ends with is the one it started
    with or the far parameter of an axis it tightened. *)
Lemma slab_loop_upper r box axes : forall tMin tMax a b,
  fst (slab_loop r box axes tMin tMax) = Some (a, b) ->
  b = tMax \/ exists axis, In axis axes /\ parallel r axis = false /\
                          b = t_far r box axis.
Proof.
  induction axes as [|i rest IH]; intros tMin tMax a b S.
  - rewrite slab_loop_nil in S. injection S as <- <-. now left.
  - rewrite slab_loop_cons in S.
    destruct (fst (slab_axis r box i tMin tMax)) as [[a1 b1]|] eqn:S1;
      [|discriminate].
    destruct (IH a1 b1 a b S) as [->|(axis & I & P & E)].
    + rewrite slab_axis_fst in S1. cbv zeta in S1.
      destruct (parallel r i) eqn:P.
      * destruct (outside r box i); [discriminate|].
        injection S1 as <- <-. now left.
      * revert S1. cmp_split; try discriminate; intro E; injection E as <- <-;
          try (now left); right; exists i; simpl; auto.
    + right. exists axis. simpl. auto.
Qed.

(** A slab interval around 0 on an axis the ray is not parallel to
    puts the origin between the two planes. *)
Lemma near_far_within r box axis :
  parallel r axis = false ->
  t_near r box axis <= 0 -> 0 <= t_far r box axis ->
  (min box).[axis] <= (origin r).[axis] <= (max box).[axis].
Proof.
  intros P. apply fltb_false in P. apply not_parallel_cases in P.
  unfold t_near, t_far. cbv zeta. qnorm.
  destruct P as [D|D].
  - pose proof (inv_neg _ D) as I.
    set (i := 1 / (dir r).[axis]) in *. cmp_split; [|exfalso; lra].
    intros N G. split; nra.
  - pose proof (inv_pos _ D) as I.
    set (i := 1 / (dir r).[axis]) in *. cmp_split; [exfalso; lra|].
    intros N G. split; nra.
Qed.

Lemma inside_or_outside r box :
  inside r box = false ->
  exists axis, In axis [0; 1; 2]%nat /\ outside r box axis = true.
Proof.
  intro N.
  destruct (outside r box 0) eqn:O0; [exists 0%nat; simpl; auto|].
  destruct (outside r box 1) eqn:O1; [exists 1%nat; simpl; auto|].
  destruct (outside r box 2) eqn:O2; [exists 2%nat; simpl; auto|].
  exfalso.
  assert (W : origin_within r box).
  { assert (K : forall axis, outside r box axis = false ->
                  (min box).[axis] <= (origin r).[axis] <= (max box).[axis]).
    { intros axis O. unfold outside in O. apply orb_false_iff in O.
      destruct O as [A B]. apply fltb_false in A, B. auto. }
    intros [|[|axis]]; split; apply fleb_true;
      first [apply (K 0%nat O0)|apply (K 1%nat O1)|apply (K 2%nat O2)]. }
  apply inside_axes in W. congruence.
Qed.

Lemma slab_loop_divs_guarded r box axes : forall tMin tMax,
  Forall (fun d => EPS <= Qabs d) (snd (slab_loop r box axes tMin tMax)).
Proof.
  induction axes as [|axis rest IH]; intros tMin tMax.
  - constructor.
  - rewrite slab_loop_divs_cons, slab_axis_snd. apply Forall_app. split.
    + destruct (parallel r axis) eqn:P; constructor; [|constructor].
      now apply fltb_false in P.
    + destruct (fst (slab_axis r box axis tMin tMax)) as [[a b]|];
        [apply IH|constructor].
Qed.

End QBehind.

(** ** The worked examples of the source, in both arithmetics *)

(** The two evidence hooks: the first ray hits the first example box at
    distance 1 and picks object 0, the second misses everything. *)
Example hook_ray_hits_b32 :
  rayAabbSlab (F:=b32) hook_ray campfire_box = Some (flit 1) /\
  pickObjectId (F:=b32) hook_ray = 0%Z.
Proof. split; vm_compute; reflexivity. Qed.

Example hook_ray_hits_Q :
  rayAabbSlab (F:=Q) hook_ray campfire_box = Some 1%Q /\
  pickObjectId (F:=Q) hook_ray = 0%Z.
Proof. split; vm_compute; reflexivity. Qed.

Example far_ray_misses_b32 :
  rayAabbSlab (F:=b32) far_ray campfire_box = None /\
  pickObjectId (F:=b32) far_ray = (-1)%Z.
Proof. split; vm_compute; reflexivity. Qed.

Example far_ray_misses_Q :
  rayAabbSlab (F:=Q) far_ray campfire_box = None /\
  pickObjectId (F:=Q) far_ray = (-1)%Z.
Proof. split; vm_compute; reflexivity. Qed.

(** The plan computes the same on the first hook, and divides once, by
    the z component of the direction. *)
Example hook_ray_plan_b32 :
  rayAabbSlab_plan (F:=b32) hook_ray campfire_box = Some (flit 1) /\
  divisors (F:=b32) hook_ray campfire_box = [flit 1].
Proof. split; vm_compute; reflexivity. Qed.

(** ** The intersector *)

(** C3: for every box with [min <= max] componentwise and every ray whose
    origin lies within the box on all three axes, [rayAabbSlab] returns a
    hit with [tNear = 0].  The statement holds for any arithmetic, binary32
    included: the six comparisons of the inside test are the hypothesis. *)
Theorem origin_inside_hit_at_zero {F} `{FloatOps F} (r : Ray F) (box : AABB F) :
  valid_box box -> origin_within r box -> rayAabbSlab r box = Some (flit 0).
Proof.
  intros _ W. now apply inside_hit.
Qed.

Lemma origin_inside_hit_at_zero_witness :
  let r : Ray b32 := ray 0 1 0 0 0 1 in
  let box : AABB b32 := box3 (-1) 0 (-1) 1 2 1 in
  valid_box box /\ origin_within r box /\ rayAabbSlab r box = Some (flit 0).
Proof.
  intros r box.
  assert (V : valid_box box) by (intros [|[|[|?]]]; reflexivity).
  assert (W : origin_within r box) by (intros [|[|[|?]]]; split; reflexivity).
  split; [exact V|]. split; [exact W|].
  exact (origin_inside_hit_at_zero r box V W).
Defined.

(** C5: for every ray and every box with [min <= max], whenever
    [rayAabbSlab] returns a hit, the reported [tNear] is at least 0.  From
    the order laws alone, so in binary32 as in exact arithmetic. *)
Theorem hit_distance_nonnegative {F} `{FloatOrder F} (r : Ray F) (box : AABB F) (t : F) :
  valid_box box -> rayAabbSlab r box = Some t -> (flit 0 <=? t)%flt = true.
Proof.
  intros _. apply hit_nonneg.
Qed.

Lemma hit_distance_nonnegative_witness :
  valid_box (campfire_box (F:=b32)) /\
  rayAabbSlab (F:=b32) hook_ray campfire_box = Some (flit 1) /\
  (flit 0 <=? (flit 1 : b32))%flt = true.
Proof.
  assert (V : valid_box (campfire_box (F:=b32))) by (intros [|[|[|?]]]; reflexivity).
  assert (E : rayAabbSlab (F:=b32) hook_ray campfire_box = Some (flit 1))
    by (vm_compute; reflexivity).
  split; [exact V|]. split; [exact E|].
  exact (hit_distance_nonnegative hook_ray campfire_box (flit 1) V E).
Defined.

(** C6: for every box and every ray whose direction component on some
    axis has magnitude below 1e-6 while the origin's coordinate on that
    axis lies outside [min, max] of the box, [rayAabbSlab] returns a
    miss, whatever the other axes are.  From the order laws alone. *)
Theorem parallel_outside_misses {F} `{FloatOrder F} (r : Ray F) (box : AABB F) (axis : nat) :
  (axis < 3)%nat ->
  (fabs ((dir r).[axis]) <? EPS)%flt = true ->
  ((origin r).[axis] <? (min box).[axis])%flt = true \/
  ((max box).[axis] <? (origin r).[axis])%flt = true ->
  rayAabbSlab r box = None.
Proof.
  intros A P O.
  assert (O' : outside r box axis = true).
  { unfold outside. apply orb_true_iff. exact O. }
  rewrite rayAabbSlab_unfold, (outside_not_inside _ _ _ O').
  rewrite (slab_loop_parallel_outside r box axis); auto.
  simpl. lia.
Qed.

Lemma parallel_outside_misses_witness :
  let r : Ray b32 := ray 2 1 (-2) 0 0 1 in
  rayAabbSlab r campfire_box = None.
Proof.
  intros r.
  apply (parallel_outside_misses r campfire_box 0%nat).
  - lia.
  - reflexivity.
  - right. reflexivity.
Defined.

Section IntersectorClaims.
Local Open Scope Q_scope.
Implicit Types (r : Ray Q) (box : AABB Q).









End IntersectorClaims.




(** ** The picker *)

Section PickerClaims.
Context {F : Type} {FO : FloatOps F} {FL : FloatOrder F}.
Local Open Scope flt_scope.
Implicit Types (r : Ray F) (c o : ObjectBounds F) (objs : list (ObjectBounds F)).

(** Every candidate of a sequence that is split around [c]. *)
Lemma in_split_cases c' l1 c l2 :
  In c' (l1 ++ c :: l2) -> In c' l1 \/ c' = c \/ In c' l2.
Proof.
  intro I. apply in_app_or in I. destruct I as [I|[E|I]]; auto.
Qed.

(** Nearest-hit selection below [FLT_MAX]: when some candidate is hit with
    [tNear < FLT_MAX] the picker returns the identifier of a hit candidate
    with the minimum [tNear] among all hit candidates; when no candidate
    is hit with [tNear < FLT_MAX] it returns -1. *)
Lemma picks_nearest_hit_below_FLT_MAX r objs :
  ((forall c t, In c objs -> hit_at r c t -> (t <? FLT_MAX) = false) ->
   pickNearest r objs = (-1)%Z) /\
  ((exists c t, In c objs /\ hit_at r c t /\ (t <? FLT_MAX) = true) ->
   exists c t, In c objs /\ hit_at r c t /\
               (forall c' t', In c' objs -> hit_at r c' t' -> (t <=? t') = true) /\
               pickNearest r objs = id c).
Proof.
  unfold pickNearest.
  destruct (pick_loop_spec r objs (-1) FLT_MAX FLT_MAX_ordered)
    as [[E K]|(l1 & c & l2 & t & -> & E & H & Lt & B & A)].
  - split; [auto|].
    intros (c & t & I & H & Lt). exfalso.
    rewrite (K c t I H) in Lt. discriminate.
  - assert (I : In c (l1 ++ c :: l2)) by (apply in_or_app; right; now left).
    split.
    + intro K. exfalso. rewrite (K c t I H) in Lt. discriminate.
    + intros _. exists c, t.
      split; [exact I|]. split; [exact H|]. split; [|exact E].
      intros c' t' I' H'.
      destruct (in_split_cases _ _ _ _ I') as [J|[->|J]].
      * apply fltb_fleb. now apply (B c').
      * unfold hit_at in H, H'. rewrite H in H'. injection H' as <-.
        exact (hit_ordered _ _ _ H).
      * now apply (A c').
Qed.

(** First-wins below [FLT_MAX]: when [c] is hit at a distance
    [t < FLT_MAX] that is minimal among all hits, and no candidate before
    [c] is hit at that distance, the picker returns the identifier of [c],
    whichever later candidates tie with it. *)
Lemma first_of_tie_below_FLT_MAX r l1 c l2 t :
  hit_at r c t -> (t <? FLT_MAX) = true ->
  (forall o s, In o l1 -> hit_at r o s -> (t <? s) = true) ->
  (forall o s, In o l2 -> hit_at r o s -> (t <=? s) = true) ->
  pickNearest r (l1 ++ c :: l2) = id c.
Proof.
  intros H L B A. unfold pickNearest. now apply pick_loop_first_min with (t := t).
Qed.

(** C9: for every ray, [pickObjectId] returns -1 or one of the five
    identifiers 0..4 of the table; and whenever it returns an identifier
    [i >= 0], [rayAabbSlab] reports a hit for the box of candidate [i],
    at a [tNear] minimal among all hit candidates.  From the order laws
    alone, so in binary32 as in exact arithmetic. *)
Theorem pickObjectId_result r :
  (pickObjectId r = (-1)%Z \/ In (pickObjectId r) [0; 1; 2; 3; 4]%Z) /\
  ((0 <= pickObjectId r)%Z ->
   exists c t, In c objects /\ id c = pickObjectId r /\ hit_at r c t /\
               forall c' t', In c' objects -> hit_at r c' t' -> (t <=? t') = true).
Proof.
  change (pickObjectId r) with (pick_loop r objects (-1) FLT_MAX).
  destruct (pick_loop_spec r objects (-1) FLT_MAX FLT_MAX_ordered)
    as [[E K]|(l1 & c & l2 & t & D & E & H & Lt & B & A)].
  - rewrite E. split; [now left|]. intro P. exfalso. lia.
  - assert (I : In c objects) by (rewrite D; apply in_or_app; right; now left).
    rewrite E. split.
    + right. simpl in I.
      repeat (destruct I as [<-|I]; [simpl; tauto|]). destruct I.
    + intros _. exists c, t.
      split; [exact I|]. split; [reflexivity|]. split; [exact H|].
      intros c' t' I' H'. rewrite D in I'.
      destruct (in_split_cases _ _ _ _ I') as [J|[->|J]].
      * apply fltb_fleb. now apply (B c').
      * unfold hit_at in H, H'. rewrite H in H'. injection H' as <-.
        exact (hit_ordered _ _ _ H).
      * now apply (A c').
Qed.

End PickerClaims.

Lemma pickObjectId_result_witness :
  pickObjectId (F:=b32) hook_ray = 0%Z /\
  exists c t, In c objects /\ id c = pickObjectId (F:=b32) hook_ray /\
              hit_at hook_ray c t /\
              forall c' t', In c' objects -> hit_at hook_ray c' t' ->
                            (t <=? t')%flt = true.
Proof.
  split; [vm_compute; reflexivity|].
  apply (proj2 (pickObjectId_result (F:=b32) hook_ray)). vm_compute. discriminate.
Defined.

(** C1 at its failing input.  The ray [distant_ray] hits the box of
    example object 3 at exactly [tNear = FLT_MAX] and no other box, yet
    [pickObjectId] returns -1: [closestT] starts at [FLT_MAX] and
    [tNear < closestT] is false.  In binary32 and in exact arithmetic. *)
Lemma hit_at_FLT_MAX_not_picked :
  (hits (F:=b32) distant_ray objects = [None; None; None; Some FLT_MAX; None] /\
   pickObjectId (F:=b32) distant_ray = (-1)%Z /\
   ~ picks_nearest_hit (F:=b32) distant_ray objects) /\
  (hits (F:=Q) distant_ray objects = [None; None; None; Some FLT_MAX; None] /\
   pickObjectId (F:=Q) distant_ray = (-1)%Z /\
   ~ picks_nearest_hit (F:=Q) distant_ray objects).
Proof.
  split; (split; [vm_compute; reflexivity|]);
    (split; [vm_compute; reflexivity|]); intros [_ P].
  - destruct P as (c & t & I & _ & _ & E).
    + exists {| id := 3; bounds := tent_box |}, FLT_MAX.
      split; [simpl; tauto|]. vm_compute. reflexivity.
    + assert (N : pickNearest (F:=b32) distant_ray objects = (-1)%Z)
        by (vm_compute; reflexivity).
      rewrite N in E.
      repeat (destruct I as [<-|I]; [discriminate E|]). destruct I.
  - destruct P as (c & t & I & _ & _ & E).
    + exists {| id := 3; bounds := tent_box |}, FLT_MAX.
      split; [simpl; tauto|]. vm_compute. reflexivity.
    + assert (N : pickNearest (F:=Q) distant_ray objects = (-1)%Z)
        by (vm_compute; reflexivity).
      rewrite N in E.
      repeat (destruct I as [<-|I]; [discriminate E|]). destruct I.
Qed.

(** C2 at its failing input.  In binary32 the ray [grazing_ray] hits the
    boxes of example objects 0 and 1 at the same [tNear = FLT_MAX], minimal
    among all hits, and [pickObjectId] returns -1 instead of 0.  Two
    candidates with one box tie at [FLT_MAX] under [distant_ray] in exact
    arithmetic as well, with the same outcome. *)
Lemma tie_at_FLT_MAX_not_picked :
  (hits (F:=b32) grazing_ray objects
   = [Some FLT_MAX; Some FLT_MAX; None; None; None] /\
   pickObjectId (F:=b32) grazing_ray = (-1)%Z) /\
  ~ tie_goes_to_first (F:=b32) distant_ray [] twin_a [twin_b] /\
  ~ tie_goes_to_first (F:=Q) distant_ray [] twin_a [twin_b].
Proof.
  split; [split; vm_compute; reflexivity|].
  split; intro T.
  - assert (H : rayAabbSlab (F:=b32) distant_ray tent_box = Some FLT_MAX)
      by (vm_compute; reflexivity).
    specialize (T FLT_MAX H).
    assert (E : pickNearest (F:=b32) distant_ray ([] ++ twin_a :: [twin_b]) = id twin_a).
    { apply T.
      - intros o s [].
      - intros o s [<-|[]] Hs. unfold hit_at in Hs. simpl bounds in Hs.
        rewrite H in Hs. injection Hs as <-. reflexivity.
      - exists twin_b, FLT_MAX. split; [now left|]. split; [exact H|reflexivity]. }
    vm_compute in E. discriminate E.
  - assert (H : rayAabbSlab (F:=Q) distant_ray tent_box = Some FLT_MAX)
      by (vm_compute; reflexivity).
    specialize (T FLT_MAX H).
    assert (E : pickNearest (F:=Q) distant_ray ([] ++ twin_a :: [twin_b]) = id twin_a).
    { apply T.
      - intros o s [].
      - intros o s [<-|[]] Hs. unfold hit_at in Hs. simpl bounds in Hs.
        rewrite H in Hs. injection Hs as <-. reflexivity.
      - exists twin_b, FLT_MAX. split; [now left|]. split; [exact H|reflexivity]. }
    vm_compute in E. discriminate E.
Qed.
(** ** The interval of the loop stays below [FLT_MAX] (order laws) *)

Section LawfulInterval.
Context {F : Type} {FO : FloatOps F} {FL : FloatOrder F}.
Local Open Scope flt_scope.
Implicit Types (r : Ray F) (box : AABB F) (a b t s : F).

Lemma slab_axis_window r box axis tMin tMax a b :
  fst (slab_axis r box axis tMin tMax) = Some (a, b) ->
  ordered tMin -> ordered tMax ->
  (tMin <=? tMax) = true -> (tMax <=? FLT_MAX) = true ->
  ordered a /\ ordered b /\ (a <=? b) = true /\ (b <=? FLT_MAX) = true.
Proof.
  rewrite slab_axis_fst. cbv zeta. intros S Om OM L U.
  destruct (parallel r axis).
  - destruct (outside r box axis); [discriminate|].
    injection S as <- <-. auto.
  - set (a' := if tMin <? t_near r box axis then t_near r box axis else tMin) in *.
    set (b' := if t_far r box axis <? tMax then t_far r box axis else tMax) in *.
    assert (Oa : ordered a').
    { unfold a'. destruct (tMin <? t_near r box axis) eqn:N; [|exact Om].
      exact (proj2 (fltb_ordered _ _ N)). }
    assert (Ob : ordered b' /\ (b' <=? FLT_MAX) = true).
    { unfold b'. destruct (t_far r box axis <? tMax) eqn:G; [|auto].
      split; [exact (proj1 (fltb_ordered _ _ G))|].
      apply (fleb_trans _ tMax); [now apply fltb_fleb|exact U]. }
    destruct Ob as [Ob Ub].
    destruct (b' <? a') eqn:X; [discriminate|].
    injection S as <- <-.
    repeat split; auto. now apply fleb_total.
Qed.

Lemma slab_loop_window r box axes : forall tMin tMax a b,
  fst (slab_loop r box axes tMin tMax) = Some (a, b) ->
  ordered tMin -> ordered tMax ->
  (tMin <=? tMax) = true -> (tMax <=? FLT_MAX) = true ->
  (a <=? b) = true /\ (b <=? FLT_MAX) = true.
Proof.
  induction axes as [|axis rest IH]; intros tMin tMax a b.
  - rewrite slab_loop_nil. intros E _ _ L U. injection E as <- <-. auto.
  - rewrite slab_loop_cons.
    destruct (fst (slab_axis r box axis tMin tMax)) as [[a1 b1]|] eqn:S1;
      [|discriminate].
    intros E Om OM L U.
    destruct (slab_axis_window _ _ _ _ _ _ _ S1 Om OM L U) as (Oa & Ob & L1 & U1).
    now apply (IH _ _ _ _ E).
Qed.

Lemma hit_le_FLT_MAX r box t :
  rayAabbSlab r box = Some t -> (t <=? FLT_MAX) = true.
Proof.
  rewrite rayAabbSlab_unfold.
  destruct (inside r box).
  - intro E. injection E as <-. exact zero_le_FLT_MAX.
  - destruct (fst (slab_loop r box [0; 1; 2]%nat (flit 0) FLT_MAX))
      as [[a b]|] eqn:L; [|discriminate].
    pose proof (slab_loop_nonneg _ _ _ _ _ _ _ L zero_ordered) as Z.
    destruct (slab_loop_window _ _ _ _ _ _ _ L zero_ordered FLT_MAX_ordered
                zero_le_FLT_MAX FLT_MAX_ordered) as [A U].
    unfold slab_result. rewrite Z. intro E. injection E as <-.
    exact (fleb_trans _ _ _ A U).
Qed.

End LawfulInterval.

(** ** The texture table: the loops as searches of the loaded entries *)

Section TextureTable.
Implicit Types (s : SceneManager) (tag : String.string) (l : list TEXTURE_INFO.t)
  (e : TEXTURE_INFO.t).

Lemma skipn_nth_error {A} (l : list A) (i : nat) (a : A) :
  nth_error l i = Some a -> skipn i l = a :: skipn (S i) l.
Proof.
  revert i. induction l as [|b l IH]; intros [|i] H; simpl in *; try discriminate.
  - now injection H as ->.
  - now apply IH.
Qed.

Lemma nth_error_firstn_lt {A} (l : list A) (n i : nat) :
  (i < n)%nat -> nth_error (firstn n l) i = nth_error l i.
Proof.
  revert n i. induction l as [|b l IH]; intros n i H.
  - now rewrite firstn_nil.
  - destruct n as [|n]; [lia|]. destruct i as [|i]; simpl; [reflexivity|].
    apply IH. lia.
Qed.

Lemma registered_nth s i :
  (i < m_loadedTextures s)%nat ->
  nth_error (registered s) i = nth_error (m_textureIDs s) i.
Proof. apply nth_error_firstn_lt. Qed.

Lemma registered_length s :
  (m_loadedTextures s <= length (m_textureIDs s))%nat ->
  length (registered s) = m_loadedTextures s.
Proof. intro H. unfold registered. rewrite length_firstn. lia. Qed.

(** *** [first_index] *)

Lemma first_index_some tag l k :
  first_index tag l = Some k ->
  exists e, nth_error l k = Some e /\ TEXTURE_INFO.tag e = tag /\
            forall j e', (j < k)%nat -> nth_error l j = Some e' ->
                         TEXTURE_INFO.tag e' <> tag.
Proof.
  revert k. induction l as [|a l IH]; intros k; simpl; [discriminate|].
  destruct (String.eqb (TEXTURE_INFO.tag a) tag) eqn:E.
  - intro H. injection H as <-. exists a. apply String.eqb_eq in E.
    repeat split; auto. intros j e' J. lia.
  - destruct (first_index tag l) as [k'|]; simpl; [|discriminate].
    intro H. injection H as <-.
    destruct (IH k' eq_refl) as (e & N & T & B). exists e.
    repeat split; auto.
    intros [|j] e' J H; simpl in H.
    + injection H as <-. now apply String.eqb_neq.
    + apply (B j); auto. lia.
Qed.

Lemma first_index_none tag l :
  first_index tag l = None <->
  forall e, In e l -> TEXTURE_INFO.tag e <> tag.
Proof.
  induction l as [|a l IH]; simpl.
  - split; [intros _ e []|reflexivity].
  - destruct (String.eqb (TEXTURE_INFO.tag a) tag) eqn:E.
    + split; [discriminate|]. intro H. exfalso.
      apply String.eqb_eq in E. now apply (H a (or_introl eq_refl)).
    + apply String.eqb_neq in E.
      destruct (first_index tag l) as [k|]; simpl.
      * split; [discriminate|]. intro H. exfalso.
        assert (N : (None : option nat) = Some k -> False) by discriminate.
        apply N. symmetry. apply IH. intros e I. apply H. now right.
      * split; [|reflexivity]. intros _ e [<-|I]; [exact E|].
        now apply (proj1 IH eq_refl).
Qed.

Lemma first_index_app tag l l' :
  first_index tag (l ++ l') =
  match first_index tag l with
  | Some k => Some k
  | None => option_map (Nat.add (length l)) (first_index tag l')
  end.
Proof.
  induction l as [|a l IH]; simpl.
  - now destruct (first_index tag l').
  - destruct (String.eqb (TEXTURE_INFO.tag a) tag); [reflexivity|].
    rewrite IH. destruct (first_index tag l); [reflexivity|].
    now destruct (first_index tag l').
Qed.

(** *** The two lookups *)

Lemma FindTextureSlot_from_spec s tag : forall fuel index,
  (index + fuel = m_loadedTextures s)%nat ->
  (m_loadedTextures s <= length (m_textureIDs s))%nat ->
  FindTextureSlot_from s tag fuel index =
  Returned (match first_index tag (skipn index (registered s)) with
            | Some k => Z.of_nat (index + k)
            | None => (-1)%Z
            end).
Proof.
  induction fuel as [|fuel IH]; intros index E L;
    [cbn [FindTextureSlot_from FindTextureID_from]
    |cbn [FindTextureSlot_from FindTextureID_from]].
  - rewrite skipn_all2; [reflexivity|]. rewrite registered_length; lia.
  - assert (I : (index < m_loadedTextures s)%nat) by lia.
    apply Nat.ltb_lt in I as B. rewrite B.
    destruct (nth_error (m_textureIDs s) index) as [e|] eqn:N.
    + rewrite <- registered_nth in N by exact I.
      rewrite (skipn_nth_error _ _ _ N). cbn [first_index].
      destruct (String.eqb (TEXTURE_INFO.tag e) tag).
      * now rewrite Nat.add_0_r.
      * rewrite IH by lia.
        destruct (first_index tag (skipn (S index) (registered s)));
          cbn [option_map]; [|reflexivity].
        f_equal. f_equal. lia.
    + exfalso. apply nth_error_None in N. lia.
Qed.

Lemma FindTextureSlot_spec s tag :
  (m_loadedTextures s <= length (m_textureIDs s))%nat ->
  FindTextureSlot tag s =
  Returned (match first_index tag (registered s) with
            | Some k => Z.of_nat k
            | None => (-1)%Z
            end).
Proof.
  intro L. unfold FindTextureSlot. now rewrite FindTextureSlot_from_spec.
Qed.

Lemma FindTextureID_from_spec s tag : forall fuel index,
  (index + fuel = m_loadedTextures s)%nat ->
  (m_loadedTextures s <= length (m_textureIDs s))%nat ->
  FindTextureID_from s tag fuel index =
  Returned (match first_index tag (skipn index (registered s)) with
            | Some k =>
                match nth_error (registered s) (index + k) with
                | Some e => int_of_GLuint (TEXTURE_INFO.ID e)
                | None => (-1)%Z
                end
            | None => (-1)%Z
            end).
Proof.
  induction fuel as [|fuel IH]; intros index E L;
    [cbn [FindTextureSlot_from FindTextureID_from]
    |cbn [FindTextureSlot_from FindTextureID_from]].
  - rewrite skipn_all2; [reflexivity|]. rewrite registered_length; lia.
  - assert (I : (index < m_loadedTextures s)%nat) by lia.
    apply Nat.ltb_lt in I as B. rewrite B.
    destruct (nth_error (m_textureIDs s) index) as [e|] eqn:N.
    + rewrite <- registered_nth in N by exact I.
      rewrite (skipn_nth_error _ _ _ N). cbn [first_index].
      destruct (String.eqb (TEXTURE_INFO.tag e) tag).
      * now rewrite Nat.add_0_r, N.
      * rewrite IH by lia.
        destruct (first_index tag (skipn (S index) (registered s)));
          cbn [option_map]; [|reflexivity].
        now replace (index + S n)%nat with (S index + n)%nat by lia.
    + exfalso. apply nth_error_None in N. lia.
Qed.

Lemma FindTextureID_spec s tag :
  (m_loadedTextures s <= length (m_textureIDs s))%nat ->
  FindTextureID tag s =
  Returned (match first_index tag (registered s) with
            | Some k =>
                match nth_error (registered s) k with
                | Some e => int_of_GLuint (TEXTURE_INFO.ID e)
                | None => (-1)%Z
                end
            | None => (-1)%Z
            end).
Proof.
  intro L. unfold FindTextureID. now rewrite FindTextureID_from_spec.
Qed.


(** The lookups read the tags of the loaded entries only. *)
Lemma first_index_tags tag l l' :
  map TEXTURE_INFO.tag l = map TEXTURE_INFO.tag l' ->
  first_index tag l = first_index tag l'.
Proof.
  revert l'. induction l as [|a l IH]; intros [|a' l'] H; simpl in H;
    try discriminate; [reflexivity|].
  injection H as Ha Hl. simpl. rewrite Ha, (IH l' Hl). reflexivity.
Qed.

Lemma first_index_lt tag l k :
  first_index tag l = Some k -> (k < length l)%nat.
Proof.
  intro H. destruct (first_index_some _ _ _ H) as (e & N & _).
  apply nth_error_Some. congruence.
Qed.

(** *** [store] and [CreateGLTexture] *)

Lemma length_store i e l :
  (i < length l)%nat -> length (store i e l) = length l.
Proof.
  intro H. unfold store. rewrite length_app. cbn [length].
  rewrite length_firstn, length_skipn. lia.
Qed.

Lemma nth_error_store i e l j :
  (i < length l)%nat ->
  nth_error (store i e l) j = if (j =? i)%nat then Some e else nth_error l j.
Proof.
  intro H. unfold store.
  assert (Lf : length (firstn i l) = i) by (rewrite length_firstn; lia).
  destruct (Nat.eqb_spec j i) as [->|N].
  - rewrite nth_error_app2 by lia. rewrite Lf, Nat.sub_diag. reflexivity.
  - destruct (Nat.lt_ge_cases j i) as [Lt|Ge].
    + rewrite nth_error_app1 by lia. now apply nth_error_firstn_lt.
    + rewrite nth_error_app2 by lia. rewrite Lf.
      destruct (j - i)%nat as [|d] eqn:D; [lia|]. cbn [nth_error].
      rewrite nth_error_skipn. f_equal. lia.
Qed.

Lemma firstn_store i e l :
  (i < length l)%nat -> firstn (S i) (store i e l) = firstn i l ++ [e].
Proof.
  intro H. unfold store.
  assert (Lf : length (firstn i l) = i) by (rewrite length_firstn; lia).
  rewrite firstn_app, Lf.
  replace (S i - i)%nat with 1%nat by lia.
  rewrite firstn_all2 by lia. reflexivity.
Qed.

Lemma CreateGLTexture_loads image textureID tag s :
  loads image = true ->
  (m_loadedTextures s < length (m_textureIDs s))%nat ->
  CreateGLTexture image textureID tag s =
  Returned (true,
            {| m_textureIDs := store (m_loadedTextures s)
                                     (TEXTURE_INFO.mk (GLuint_of textureID) tag)
                                     (m_textureIDs s);
               m_loadedTextures := S (m_loadedTextures s) |}).
Proof.
  intros L B. unfold CreateGLTexture. destruct image as [c|]; [|discriminate].
  simpl in L. rewrite L. apply Nat.ltb_lt in B. now rewrite B.
Qed.

Lemma CreateGLTexture_fails image textureID tag s :
  loads image = false ->
  CreateGLTexture image textureID tag s = Returned (false, s).
Proof.
  intro L. unfold CreateGLTexture. destruct image as [c|]; [|reflexivity].
  simpl in L. now rewrite L.
Qed.

Lemma CreateGLTexture_overflow image textureID tag s :
  loads image = true ->
  (length (m_textureIDs s) <= m_loadedTextures s)%nat ->
  CreateGLTexture image textureID tag s = OutOfBounds.
Proof.
  intros L B. unfold CreateGLTexture. destruct image as [c|]; [|discriminate].
  simpl in L. rewrite L. apply Nat.ltb_ge in B. now rewrite B.
Qed.

Lemma registered_store s e :
  (m_loadedTextures s < length (m_textureIDs s))%nat ->
  registered {| m_textureIDs := store (m_loadedTextures s) e (m_textureIDs s);
                m_loadedTextures := S (m_loadedTextures s) |} =
  registered s ++ [e].
Proof. intro B. unfold registered. simpl. now apply firstn_store. Qed.

(** *** Sequences of [CreateGLTexture] calls *)

Lemma registrations_cons image textureID tag calls :
  registrations ((image, textureID, tag) :: calls) =
  if loads image
  then TEXTURE_INFO.mk (GLuint_of textureID) tag :: registrations calls
  else registrations calls.
Proof. unfold registrations. simpl. now destruct (loads image). Qed.

Lemma registrations_length calls :
  (length (registrations calls) <= length calls)%nat.
Proof.
  unfold registrations. rewrite length_map. apply filter_length_le.
Qed.

Lemma registrations_tags calls e :
  In e (registrations calls) -> In (TEXTURE_INFO.tag e) (map snd calls).
Proof.
  unfold registrations. intro H. apply in_map_iff in H.
  destruct H as (c & <- & I). apply filter_In in I. simpl.
  apply in_map. tauto.
Qed.

Lemma CreateGLTextures_spec calls : forall s,
  (m_loadedTextures s <= length (m_textureIDs s))%nat ->
  (m_loadedTextures s + length (registrations calls) <= length (m_textureIDs s))%nat ->
  exists s', CreateGLTextures calls s = Returned s' /\
             registered s' = registered s ++ registrations calls /\
             length (m_textureIDs s') = length (m_textureIDs s) /\
             m_loadedTextures s' =
               (m_loadedTextures s + length (registrations calls))%nat.
Proof.
  induction calls as [|[[image textureID] tag] calls IH]; intros s B C.
  - exists s. simpl. rewrite app_nil_r. repeat split; auto.
  - rewrite registrations_cons in *. cbn [CreateGLTextures].
    destruct (loads image) eqn:L.
    + simpl in C. rewrite CreateGLTexture_loads by (auto; lia).
      set (s1 := {| m_textureIDs := _; m_loadedTextures := _ |}).
      assert (L1 : length (m_textureIDs s1) = length (m_textureIDs s))
        by (apply length_store; lia).
      destruct (IH s1) as (s' & E & R & Ln & Ct);
        [simpl; rewrite length_store; lia|simpl; rewrite length_store; lia|].
      exists s'. split; [exact E|]. split; [|split].
      * rewrite R. unfold s1. rewrite registered_store by lia.
        now rewrite <- app_assoc.
      * congruence.
      * rewrite Ct. simpl. lia.
    + rewrite CreateGLTexture_fails by exact L. now apply IH.
Qed.

Lemma CreateGLTextures_overflows calls : forall s,
  (m_loadedTextures s <= length (m_textureIDs s))%nat ->
  (length (m_textureIDs s) < m_loadedTextures s + length (registrations calls))%nat ->
  CreateGLTextures calls s = OutOfBounds.
Proof.
  induction calls as [|[[image textureID] tag] calls IH]; intros s B C.
  - simpl in C. lia.
  - rewrite registrations_cons in C. cbn [CreateGLTextures].
    destruct (loads image) eqn:L.
    + simpl in C.
      destruct (Nat.lt_ge_cases (m_loadedTextures s) (length (m_textureIDs s)))
        as [Lt|Ge].
      * rewrite CreateGLTexture_loads by auto.
        apply IH; simpl; rewrite length_store; lia.
      * now rewrite CreateGLTexture_overflow.
    + rewrite CreateGLTexture_fails by exact L. now apply IH.
Qed.

(** Where a call's tag is found among the registrations of a sequence of
    calls with distinct tags. *)
Lemma first_index_registrations calls : forall i image textureID tag,
  NoDup (map snd calls) ->
  nth_error calls i = Some (image, textureID, tag) ->
  first_index tag (registrations calls) =
  if loads image
  then Some (length (registrations (firstn i calls)))
  else None.
Proof.
  induction calls as [|[[image0 textureID0] tag0] calls IH];
    intros i image textureID tag D N; [destruct i; discriminate|].
  simpl in D. apply NoDup_cons_iff in D. destruct D as [Nin D].
  assert (Fresh : first_index tag0 (registrations calls) = None).
  { apply first_index_none. intros e I E. apply Nin. rewrite <- E.
    now apply registrations_tags. }
  destruct i as [|i]; simpl in N.
  - injection N as -> -> ->. rewrite registrations_cons.
    destruct (loads image); [|exact Fresh].
    cbn [first_index TEXTURE_INFO.tag]. now rewrite String.eqb_refl.
  - assert (Ne : String.eqb tag0 tag = false).
    { apply String.eqb_neq. intros ->. apply Nin.
      apply nth_error_In in N. now apply (in_map snd) in N. }
    rewrite firstn_cons, !registrations_cons.
    pose proof (IH i image textureID tag D N) as H.
    destruct (loads image0).
    + cbn [first_index TEXTURE_INFO.tag length]. rewrite Ne, H.
      now destruct (loads image).
    + exact H.
Qed.

Lemma nth_registrations calls : forall i image textureID tag,
  nth_error calls i = Some (image, textureID, tag) ->
  loads image = true ->
  nth_error (registrations calls) (length (registrations (firstn i calls))) =
  Some (TEXTURE_INFO.mk (GLuint_of textureID) tag).
Proof.
  induction calls as [|[[image0 textureID0] tag0] calls IH];
    intros i image textureID tag N L; [destruct i; discriminate|].
  destruct i as [|i]; simpl in N.
  - injection N as -> -> ->. rewrite registrations_cons, L. reflexivity.
  - rewrite firstn_cons, !registrations_cons.
    pose proof (IH i image textureID tag N L) as H.
    destruct (loads image0); [exact H|exact H].
Qed.

Lemma registrations_map {A} (g : A -> option Z * Z * String.string) (l : list A) :
  length (registrations (map g l)) =
  length (filter (fun a => loads (fst (fst (g a)))) l).
Proof.
  induction l as [|a l IH]; [reflexivity|].
  cbn [map]. destruct (g a) as [[image textureID] tag] eqn:G.
  rewrite registrations_cons. cbn [filter]. rewrite G. cbn [fst].
  destruct (loads image); cbn [length]; now rewrite IH.
Qed.

(** *** [BindGLTextures] *)

Lemma BindGLTextures_from_spec s : forall fuel i,
  (i + fuel = m_loadedTextures s)%nat ->
  (m_loadedTextures s <= length (m_textureIDs s))%nat ->
  BindGLTextures_from s fuel i = Returned (bind_calls i (skipn i (registered s))).
Proof.
  induction fuel as [|fuel IH]; intros i E L; cbn [BindGLTextures_from].
  - rewrite skipn_all2; [reflexivity|]. rewrite registered_length; lia.
  - assert (I : (i < m_loadedTextures s)%nat) by lia.
    apply Nat.ltb_lt in I as B. rewrite B.
    destruct (nth_error (m_textureIDs s) i) as [e|] eqn:N.
    + rewrite <- registered_nth in N by exact I.
      rewrite (skipn_nth_error _ _ _ N). rewrite IH by lia. reflexivity.
    + exfalso. apply nth_error_None in N. lia.
Qed.

Lemma bind_calls_length l : forall i, length (bind_calls i l) = (2 * length l)%nat.
Proof. induction l as [|e l IH]; intro i; simpl; [reflexivity|]. rewrite IH. lia. Qed.

Lemma bind_calls_nth l : forall i k e,
  nth_error l k = Some e ->
  nth_error (bind_calls i l) (2 * k) = Some (glActiveTexture (i + k)) /\
  nth_error (bind_calls i l) (2 * k + 1) = Some (glBindTexture (TEXTURE_INFO.ID e)).
Proof.
  induction l as [|a l IH]; intros i k e N; [destruct k; discriminate|].
  destruct k as [|k]; simpl in N.
  - injection N as ->. simpl. now rewrite Nat.add_0_r.
  - destruct (IH (S i) k e N) as [A B].
    replace (2 * S k)%nat with (S (S (2 * k))) by lia.
    replace (i + S k)%nat with (S i + k)%nat by lia.
    split; [exact A|]. exact B.
Qed.

(** *** [DestroyGLTextures] *)

Lemma DestroyGLTextures_from_spec fresh loaded : forall fuel arr i,
  (i + fuel = loaded)%nat -> (loaded <= length arr)%nat ->
  exists arr',
    DestroyGLTextures_from fresh arr loaded fuel i =
      Returned (arr', repeat glGenTextures fuel) /\
    length arr' = length arr /\
    forall j, nth_error arr' j =
              if ((i <=? j) && (j <? loaded))%nat
              then option_map (fun e => TEXTURE_INFO.mk (GLuint_of (fresh j))
                                                       (TEXTURE_INFO.tag e))
                              (nth_error arr j)
              else nth_error arr j.
Proof.
  induction fuel as [|fuel IH]; intros arr i E L; cbn [DestroyGLTextures_from].
  - exists arr. repeat split; auto. intro j.
    destruct (Nat.leb_spec i j), (Nat.ltb_spec j loaded); simpl; auto; lia.
  - assert (I : (i < loaded)%nat) by lia.
    apply Nat.ltb_lt in I as B. rewrite B.
    destruct (nth_error arr i) as [e|] eqn:N;
      [|exfalso; apply nth_error_None in N; lia].
    set (e' := TEXTURE_INFO.mk (GLuint_of (fresh i)) (TEXTURE_INFO.tag e)).
    destruct (IH (store i e' arr) (S i)) as (arr' & R & Ln & Nth);
      [lia|rewrite length_store; lia|].
    exists arr'. rewrite R. split; [reflexivity|]. split.
    + rewrite Ln. apply length_store. lia.
    + intro j. rewrite Nth, nth_error_store by lia.
      destruct (Nat.eqb_spec j i) as [->|Ne].
      * rewrite N.
        destruct (S i <=? i)%nat eqn:A1, (i <=? i)%nat eqn:A2, (i <? loaded)%nat eqn:A3;
          rewrite ?Nat.leb_le, ?Nat.leb_gt, ?Nat.ltb_lt, ?Nat.ltb_ge in *;
          try lia; reflexivity.
      * destruct (S i <=? j)%nat eqn:A1, (i <=? j)%nat eqn:A2, (j <? loaded)%nat eqn:A3;
          rewrite ?Nat.leb_le, ?Nat.leb_gt, ?Nat.ltb_lt, ?Nat.ltb_ge in *;
          try lia; reflexivity.
Qed.

End TextureTable.

(** ** What a reported hit means geometrically (exact arithmetic) *)

Section QGeometry.
Local Open Scope Q_scope.
Implicit Types (r : Ray Q) (box : AABB Q).

(** On an axis the ray is not parallel to, a parameter lies between the
    two plane parameters exactly when the point of the ray at that
    parameter lies between the two planes. *)
Lemma between_planes r box axis (t : Q) :
  parallel r axis = false ->
  (t_near r box axis <= t /\ t <= t_far r box axis <->
   (min box).[axis] <= (origin r).[axis] + t * (dir r).[axis] <= (max box).[axis]).
Proof.
  intro P. apply fltb_false in P. apply not_parallel_cases in P.
  unfold t_near, t_far. cbv zeta. qnorm.
  set (d := (dir r).[axis]) in *. set (o := (origin r).[axis]).
  set (lo := (min box).[axis]). set (hi := (max box).[axis]).
  assert (E : forall u, u * (1 / d) * d == u).
  { intro u. field. intro Z. rewrite Z in P. destruct P as [P|P]; discriminate. }
  pose proof (E (lo - o)) as El. pose proof (E (hi - o)) as Eh.
  destruct P as [D|D].
  - pose proof (inv_neg _ D) as I.
    set (i := 1 / d) in *. cmp_split; [|exfalso; lra].
    split; intros [A B]; split; nra.
  - pose proof (inv_pos _ D) as I.
    set (i := 1 / d) in *. cmp_split; [exfalso; lra|].
    split; intros [A B]; split; nra.
Qed.

(** A run of the loop that is given a feasible parameter [s] between its
    bounds completes, and keeps [s] between its bounds. *)
Lemma slab_loop_feasible r box (s : Q) axes : forall tMin tMax,
  (forall axis, In axis axes ->
     (parallel r axis = true -> outside r box axis = false) /\
     (parallel r axis = false ->
      t_near r box axis <= s /\ s <= t_far r box axis)) ->
  tMin <= s -> s <= tMax ->
  exists a b, fst (slab_loop r box axes tMin tMax) = Some (a, b) /\
              a <= s /\ s <= b.
Proof.
  induction axes as [|axis rest IH]; intros tMin tMax K A B.
  - rewrite slab_loop_nil. eauto.
  - rewrite slab_loop_cons, slab_axis_fst. cbv zeta.
    assert (K' : forall axis', In axis' rest ->
                   (parallel r axis' = true -> outside r box axis' = false) /\
                   (parallel r axis' = false ->
                    t_near r box axis' <= s /\ s <= t_far r box axis'))
      by (intros axis' I; apply K; now right).
    destruct (K axis (or_introl eq_refl)) as [Kp Kn].
    destruct (parallel r axis).
    + rewrite (Kp eq_refl). now apply IH.
    + destruct (Kn eq_refl) as [N G].
      cmp_split; try (apply IH; auto; lra); exfalso; lra.
Qed.

End QGeometry.

(** ** Materials and the scroll wheel *)

Section MaterialList.
Context {F : Type}.
Implicit Types (m material : OBJECT_MATERIAL.t F) (ms : list (OBJECT_MATERIAL.t F))
  (tag : String.string).

Lemma FindMaterial_loop_none tag ms material :
  (forall m, In m ms -> OBJECT_MATERIAL.tag m <> tag) ->
  FindMaterial_loop tag ms material = material.
Proof.
  induction ms as [|a ms IH]; intro H; [reflexivity|]. cbn [FindMaterial_loop].
  assert (E : String.eqb (OBJECT_MATERIAL.tag a) tag = false)
    by (apply String.eqb_neq, H; now left).
  rewrite E. apply IH. intros m I. apply H. now right.
Qed.

Lemma FindMaterial_loop_first tag l1 m l2 material :
  OBJECT_MATERIAL.tag m = tag ->
  (forall m', In m' l1 -> OBJECT_MATERIAL.tag m' <> tag) ->
  FindMaterial_loop tag (l1 ++ m :: l2) material =
  OBJECT_MATERIAL.mk (OBJECT_MATERIAL.diffuseColor m) (OBJECT_MATERIAL.specularColor m)
                     (OBJECT_MATERIAL.shininess m) (OBJECT_MATERIAL.tag material).
Proof.
  intros T. induction l1 as [|a l1 IH]; intro H; cbn [app FindMaterial_loop].
  - apply String.eqb_eq in T. now rewrite T.
  - assert (E : String.eqb (OBJECT_MATERIAL.tag a) tag = false)
      by (apply String.eqb_neq, H; now left).
    rewrite E. apply IH. intros m' I. apply H. now right.
Qed.

(** A list either has no entry with the tag or splits at the first. *)
Lemma first_material_cases tag ms :
  (forall m, In m ms -> OBJECT_MATERIAL.tag m <> tag) \/
  (exists l1 m l2, ms = l1 ++ m :: l2 /\ OBJECT_MATERIAL.tag m = tag /\
                   forall m', In m' l1 -> OBJECT_MATERIAL.tag m' <> tag).
Proof.
  induction ms as [|a ms IH]; [left; intros m []|].
  destruct (String.eqb (OBJECT_MATERIAL.tag a) tag) eqn:E.
  - right. exists [], a, ms. apply String.eqb_eq in E.
    repeat split; auto; intros m' [].
  - apply String.eqb_neq in E. destruct IH as [N|(l1 & m & l2 & -> & T & B)].
    + left. intros m [<-|I]; auto.
    + right. exists (a :: l1), m, l2. repeat split; auto.
      intros m' [<-|I]; auto.
Qed.

End MaterialList.

Lemma SFleb_refl (a : spec_float) : isnan a = false -> SFleb a a = true.
Proof.
  destruct a as [s|s| |s m e]; try discriminate; intros _;
    unfold SFleb, SFcompare; destruct s; try reflexivity;
    rewrite Z.compare_refl; try reflexivity;
    try rewrite Pos.compare_refl; try reflexivity;
    try rewrite Pos.compare_cont_refl; reflexivity.
Qed.

(** ** Further properties of the intersector *)

Section IntersectorGeometry.
Local Open Scope Q_scope.
Implicit Types (r : Ray Q) (box : AABB Q).





End IntersectorGeometry.

(** X3: a reported hit distance never exceeds [FLT_MAX], the value
    [tMax] starts from.  From the order laws alone, so in binary32 as in
    exact arithmetic. *)
Theorem hit_distance_at_most_FLT_MAX {F} `{FloatOrder F} (r : Ray F) (box : AABB F) (t : F) :
  rayAabbSlab r box = Some t -> (t <=? FLT_MAX)%flt = true.
Proof.
  apply hit_le_FLT_MAX.
Qed.

Lemma hit_distance_at_most_FLT_MAX_witness :
  rayAabbSlab (F:=b32) distant_ray tent_box = Some FLT_MAX /\
  ((FLT_MAX : b32) <=? FLT_MAX)%flt = true.
Proof.
  assert (E : rayAabbSlab (F:=b32) distant_ray tent_box = Some FLT_MAX)
    by (vm_compute; reflexivity).
  split; [exact E|].
  exact (hit_distance_at_most_FLT_MAX distant_ray tent_box FLT_MAX E).
Defined.

(** X4: in binary32 every reported hit distance is a number at or above
    zero: never a NaN, never an infinity, never negative, whatever the ray
    and the box contain (NaN and infinite coordinates included). *)
Theorem hit_distance_finite (r : Ray b32) (box : AABB b32) (t : b32) :
  rayAabbSlab r box = Some t -> finite_nonneg t = true.
Proof.
  intro E.
  pose proof (hit_nonneg r box t E) as Z.
  pose proof (hit_le_FLT_MAX r box t E) as U.
  destruct t as [[|]|[|]| |[|] m e]; try reflexivity;
    vm_compute in Z; vm_compute in U; congruence.
Qed.

Lemma hit_distance_finite_witness :
  rayAabbSlab (F:=b32) remote_ray remote_box = None /\
  rayAabbSlab (F:=b32) hook_ray campfire_box = Some (flit 1) /\
  finite_nonneg (flit 1 : b32) = true.
Proof.
  split; [vm_compute; reflexivity|].
  assert (E : rayAabbSlab (F:=b32) hook_ray campfire_box = Some (flit 1))
    by (vm_compute; reflexivity).
  split; [exact E|].
  exact (hit_distance_finite hook_ray campfire_box (flit 1) E).
Defined.

(** ** Further properties of the picker *)

Section PickerSelection.
Context {F : Type} {FO : FloatOps F} {FL : FloatOrder F}.
Local Open Scope flt_scope.
Implicit Types (r : Ray F) (c o : ObjectBounds F) (objs : list (ObjectBounds F)).

(** X5: the picker returns a nearest hit among those below [FLT_MAX].
    Over any candidate sequence, when some candidate is hit with
    [tNear < FLT_MAX] the picker returns the identifier of a hit candidate
    whose [tNear] is the minimum over all hit candidates; when none is,
    it returns -1.  From the order laws alone, so in binary32 as in exact
    arithmetic. *)
Theorem nearest_hit_picked r objs :
  ((forall c t, In c objs -> hit_at r c t -> (t <? FLT_MAX) = false) ->
   pickNearest r objs = (-1)%Z) /\
  ((exists c t, In c objs /\ hit_at r c t /\ (t <? FLT_MAX) = true) ->
   exists c t, In c objs /\ hit_at r c t /\
               (forall c' t', In c' objs -> hit_at r c' t' -> (t <=? t') = true) /\
               pickNearest r objs = id c).
Proof.
  apply picks_nearest_hit_below_FLT_MAX.
Qed.

(** X6: of equal nearest hits the first in the sequence is picked.  When
    [c] is hit at a distance [t < FLT_MAX] that no candidate before it
    reaches and no candidate after it beats, the picker returns the
    identifier of [c], whichever later candidates are hit at [t] too. *)
Theorem first_of_equal_hits_picked r l1 c l2 t :
  hit_at r c t -> (t <? FLT_MAX) = true ->
  (forall o s, In o l1 -> hit_at r o s -> (t <? s) = true) ->
  (forall o s, In o l2 -> hit_at r o s -> (t <=? s) = true) ->
  pickNearest r (l1 ++ c :: l2) = id c.
Proof.
  apply first_of_tie_below_FLT_MAX.
Qed.

End PickerSelection.

Lemma nearest_hit_picked_witness :
  pickNearest (F:=b32) far_ray objects = (-1)%Z /\
  exists c t, In c objects /\ hit_at (F:=b32) hook_ray c t /\
              (forall c' t', In c' objects -> hit_at hook_ray c' t' ->
                             (t <=? t')%flt = true) /\
              pickNearest (F:=b32) hook_ray objects = id c.
Proof.
  split.
  - apply (proj1 (nearest_hit_picked (F:=b32) far_ray objects)).
    intros c t I H. exfalso. unfold hit_at in H.
    repeat (destruct I as [<-|I]; [vm_compute in H; discriminate H|]). destruct I.
  - apply (proj2 (nearest_hit_picked (F:=b32) hook_ray objects)).
    exists {| id := 0; bounds := campfire_box |}, (flit 1).
    split; [now left|]. split; vm_compute; reflexivity.
Defined.

Lemma first_of_equal_hits_picked_witness :
  let a : ObjectBounds b32 := {| id := 0; bounds := campfire_box |} in
  let b : ObjectBounds b32 := {| id := 7; bounds := campfire_box |} in
  hit_at hook_ray a (flit 1) /\ hit_at hook_ray b (flit 1) /\
  pickNearest (F:=b32) hook_ray ([] ++ a :: [b]) = 0%Z.
Proof.
  intros a b.
  assert (E : rayAabbSlab (F:=b32) hook_ray campfire_box = Some (flit 1))
    by (vm_compute; reflexivity).
  split; [exact E|]. split; [exact E|].
  apply (first_of_equal_hits_picked (F:=b32) hook_ray [] a [b] (flit 1)).
  - exact E.
  - vm_compute. reflexivity.
  - intros o s [].
  - intros o s [<-|[]] H. unfold hit_at in H. simpl bounds in H.
    rewrite E in H. injection H as <-. vm_compute. reflexivity.
Defined.

Section PickerOrder.
Context {F : Type} {FO : FloatOps F} {FL : FloatOrder F}.
Local Open Scope flt_scope.
Implicit Types (r : Ray F) (c o : ObjectBounds F) (objs : list (ObjectBounds F)).

(** X7: the order of the candidates matters for ties only.  When any two
    candidates that are hit at the same distance carry the same
    identifier, the picker returns the same identifier for every
    permutation of the candidate sequence. *)
Theorem pickNearest_permutation r objs objs' :
  Permutation objs objs' ->
  (forall c c' t t',
      In c objs -> In c' objs -> hit_at r c t -> hit_at r c' t' ->
      (t <=? t') = true -> (t' <=? t) = true -> id c = id c') ->
  pickNearest r objs = pickNearest r objs'.
Proof.
  intros P T. unfold pickNearest.
  assert (min_of : forall l l1 c l2 t,
             l = l1 ++ c :: l2 -> hit_at r c t ->
             (forall o s, In o l1 -> hit_at r o s -> (t <? s) = true) ->
             (forall o s, In o l2 -> hit_at r o s -> (t <=? s) = true) ->
             forall o s, In o l -> hit_at r o s -> (t <=? s) = true).
  { intros l l1 c l2 t -> H B A o s I Hs.
    apply in_app_or in I. destruct I as [I|[<-|I]].
    - apply fltb_fleb. now apply (B o).
    - unfold hit_at in H, Hs. rewrite H in Hs. injection Hs as <-.
      exact (hit_ordered _ _ _ H).
    - now apply (A o). }
  destruct (pick_loop_spec r objs (-1) FLT_MAX FLT_MAX_ordered)
    as [[E K]|(l1 & c & l2 & t & D & E & H & Lt & B & A)];
  destruct (pick_loop_spec r objs' (-1) FLT_MAX FLT_MAX_ordered)
    as [[E' K']|(l1' & c' & l2' & t' & D' & E' & H' & Lt' & B' & A')].
  - congruence.
  - exfalso.
    assert (I : In c' objs).
    { apply (Permutation_in _ (Permutation_sym P)). rewrite D'.
      apply in_or_app. right. now left. }
    rewrite (K c' t' I H') in Lt'. discriminate.
  - exfalso.
    assert (I : In c objs').
    { apply (Permutation_in _ P). rewrite D. apply in_or_app. right. now left. }
    rewrite (K' c t I H) in Lt. discriminate.
  - rewrite E, E'.
    assert (I : In c objs) by (rewrite D; apply in_or_app; right; now left).
    assert (I' : In c' objs') by (rewrite D'; apply in_or_app; right; now left).
    assert (J : In c' objs) by (apply (Permutation_in _ (Permutation_sym P)), I').
    assert (J' : In c objs') by (apply (Permutation_in _ P), I).
    apply (T c c' t t' I J H H').
    + exact (min_of objs l1 c l2 t D H B A c' t' J H').
    + exact (min_of objs' l1' c' l2' t' D' H' B' A' c t J' H).
Qed.

End PickerOrder.

Lemma pickNearest_permutation_witness :
  pickNearest (F:=b32) hook_ray objects = pickNearest (F:=b32) hook_ray (rev objects).
Proof.
  apply (pickNearest_permutation (F:=b32) hook_ray objects (rev objects)).
  - apply Permutation_rev.
  - intros c c' t t' I I' H H' L L'. unfold hit_at in H, H'.
    repeat (destruct I as [<-|I]; [|]); try destruct I;
      vm_compute in H; try discriminate H; injection H as <-;
      (repeat (destruct I' as [<-|I']; [|]); try destruct I';
       vm_compute in H'; try discriminate H'; injection H' as <-;
       first [reflexivity
             | vm_compute in L; discriminate L
             | vm_compute in L'; discriminate L']).
Defined.

(** ** The slab test of the plan *)



(** ** The texture table of the scene manager *)

Section TextureLookups.
Implicit Types (s : SceneManager) (tag : String.string).

(** X8: [FindTextureSlot] returns the first loaded slot with the tag.  On
    a table whose count of loaded textures does not exceed the array, the
    call never reads past the array and returns either -1, and then no
    loaded entry carries the tag, or the index of a loaded entry that
    carries the tag while no entry before it does. *)
Theorem FindTextureSlot_first_match s tag :
  (m_loadedTextures s <= length (m_textureIDs s))%nat ->
  (FindTextureSlot tag s = Returned (-1)%Z /\
   forall i e, (i < m_loadedTextures s)%nat ->
               nth_error (m_textureIDs s) i = Some e -> TEXTURE_INFO.tag e <> tag) \/
  (exists i e,
     FindTextureSlot tag s = Returned (Z.of_nat i) /\
     (i < m_loadedTextures s)%nat /\
     nth_error (m_textureIDs s) i = Some e /\ TEXTURE_INFO.tag e = tag /\
     forall j e', (j < i)%nat -> nth_error (m_textureIDs s) j = Some e' ->
                  TEXTURE_INFO.tag e' <> tag).
Proof.
  intro L. rewrite (FindTextureSlot_spec s tag L).
  destruct (first_index tag (registered s)) as [k|] eqn:E.
  - right. pose proof (first_index_lt _ _ _ E) as K.
    rewrite registered_length in K by exact L.
    destruct (first_index_some _ _ _ E) as (e & N & T & B).
    exists k, e. rewrite registered_nth in N by exact K.
    repeat split; auto.
    intros j e' J N'. apply (B j e' J). rewrite registered_nth by lia. exact N'.
  - left. split; [reflexivity|]. intros i e I N.
    apply (proj1 (first_index_none tag (registered s)) E).
    apply (nth_error_In _ i). now rewrite registered_nth.
Qed.

(** X9: [FindTextureID] and [FindTextureSlot] agree.  On such a table
    both return -1, or the slot is the index of an entry of the table and
    the identifier is the [ID] of that entry, read as an [int]. *)
Theorem FindTextureID_of_slot s tag :
  (m_loadedTextures s <= length (m_textureIDs s))%nat ->
  (FindTextureSlot tag s = Returned (-1)%Z /\ FindTextureID tag s = Returned (-1)%Z) \/
  (exists i e,
     FindTextureSlot tag s = Returned (Z.of_nat i) /\
     nth_error (m_textureIDs s) i = Some e /\
     FindTextureID tag s = Returned (int_of_GLuint (TEXTURE_INFO.ID e))).
Proof.
  intro L. rewrite (FindTextureSlot_spec s tag L), (FindTextureID_spec s tag L).
  destruct (first_index tag (registered s)) as [k|] eqn:E; [right|left; auto].
  pose proof (first_index_lt _ _ _ E) as K.
  destruct (first_index_some _ _ _ E) as (e & N & _).
  exists k, e. rewrite N. rewrite registered_length in K by exact L.
  rewrite registered_nth in N by exact K. auto.
Qed.

(** X10: a texture that was registered is found.  When the image loads
    with 3 or 4 channels, a slot of the array is left and the tag is not
    in the table yet, [CreateGLTexture] returns true, the count grows by
    one, and afterwards [FindTextureSlot] returns the slot the count
    pointed at and [FindTextureID] the name that [glGenTextures] wrote. *)
Theorem CreateGLTexture_registers image textureID tag s :
  loads image = true ->
  (m_loadedTextures s < length (m_textureIDs s))%nat ->
  FindTextureSlot tag s = Returned (-1)%Z ->
  exists s',
    CreateGLTexture image textureID tag s = Returned (true, s') /\
    m_loadedTextures s' = S (m_loadedTextures s) /\
    length (m_textureIDs s') = length (m_textureIDs s) /\
    FindTextureSlot tag s' = Returned (Z.of_nat (m_loadedTextures s)) /\
    FindTextureID tag s' = Returned (int_of_GLuint (GLuint_of textureID)).
Proof.
  intros Ld B Fr.
  rewrite FindTextureSlot_spec in Fr by lia.
  assert (E : first_index tag (registered s) = None).
  { destruct (first_index tag (registered s)) as [k|]; [|reflexivity].
    injection Fr as Fr. lia. }
  rewrite (CreateGLTexture_loads _ _ _ _ Ld B).
  set (e := TEXTURE_INFO.mk (GLuint_of textureID) tag).
  set (s' := {| m_textureIDs := _; m_loadedTextures := _ |}).
  assert (Ln : length (m_textureIDs s') = length (m_textureIDs s))
    by (apply length_store; exact B).
  assert (R : registered s' = registered s ++ [e]) by (apply registered_store; exact B).
  assert (I : first_index tag (registered s') = Some (m_loadedTextures s)).
  { rewrite R, first_index_app, E. cbn [first_index TEXTURE_INFO.tag e].
    rewrite String.eqb_refl. cbn [option_map].
    rewrite registered_length by lia. now rewrite Nat.add_0_r. }
  exists s'. split; [reflexivity|]. split; [reflexivity|]. split; [exact Ln|].
  rewrite FindTextureSlot_spec, FindTextureID_spec by (rewrite Ln; simpl; lia).
  rewrite I. split; [reflexivity|].
  rewrite R, nth_error_app2 by (rewrite registered_length; lia).
  rewrite registered_length by lia. now rewrite Nat.sub_diag.
Qed.

(** X11: registering a texture changes no lookup that found something,
    and no lookup of another tag.  In particular a tag registered a second
    time keeps resolving to its first slot: the later texture takes a slot
    and is never found. *)
Theorem CreateGLTexture_keeps_lookups image textureID tag s b s' tag' :
  (m_loadedTextures s <= length (m_textureIDs s))%nat ->
  CreateGLTexture image textureID tag s = Returned (b, s') ->
  tag' <> tag \/ FindTextureSlot tag' s <> Returned (-1)%Z ->
  FindTextureSlot tag' s' = FindTextureSlot tag' s /\
  FindTextureID tag' s' = FindTextureID tag' s.
Proof.
  intros L C K.
  destruct (loads image) eqn:Ld.
  - destruct (Nat.lt_ge_cases (m_loadedTextures s) (length (m_textureIDs s)))
      as [B|B]; [|rewrite CreateGLTexture_overflow in C by auto; discriminate].
    rewrite (CreateGLTexture_loads _ _ _ _ Ld B) in C. injection C as _ <-.
    set (e := TEXTURE_INFO.mk (GLuint_of textureID) tag).
    set (s' := {| m_textureIDs := _; m_loadedTextures := _ |}).
    assert (Ln : length (m_textureIDs s') = length (m_textureIDs s))
      by (apply length_store; exact B).
    assert (R : registered s' = registered s ++ [e])
      by (apply registered_store; exact B).
    rewrite (FindTextureSlot_spec s'), (FindTextureID_spec s')
      by (rewrite Ln; simpl; lia).
    rewrite (FindTextureSlot_spec s) in * by exact L.
    rewrite (FindTextureID_spec s) by exact L.
    rewrite R, first_index_app.
    destruct (first_index tag' (registered s)) as [k|] eqn:E.
    + split; [reflexivity|].
      rewrite nth_error_app1 by (apply (first_index_lt _ _ _ E)). reflexivity.
    + destruct K as [K|K]; [|now exfalso; apply K].
      cbn [first_index TEXTURE_INFO.tag e].
      assert (Ne : String.eqb tag tag' = false)
        by (apply String.eqb_neq; congruence).
      rewrite Ne. split; reflexivity.
  - rewrite (CreateGLTexture_fails _ _ _ _ Ld) in C. injection C as _ <-.
    split; reflexivity.
Qed.

(** X12: the slot of a texture is the number of textures loaded before
    it.  After a sequence of [CreateGLTexture] calls with distinct tags on
    an empty table that has room for those that load, the tag of a call
    whose image loaded resolves to the number of earlier calls whose image
    loaded, and its identifier to the name [glGenTextures] wrote; the tag
    of a call whose image did not load resolves to -1. *)
Theorem CreateGLTextures_slots calls s i image textureID tag :
  m_loadedTextures s = 0%nat ->
  NoDup (map snd calls) ->
  (length (registrations calls) <= length (m_textureIDs s))%nat ->
  nth_error calls i = Some (image, textureID, tag) ->
  exists s',
    CreateGLTextures calls s = Returned s' /\
    FindTextureSlot tag s' =
      Returned (if loads image
                then Z.of_nat (length (registrations (firstn i calls)))
                else (-1)%Z) /\
    FindTextureID tag s' =
      Returned (if loads image
                then int_of_GLuint (GLuint_of textureID)
                else (-1)%Z).
Proof.
  intros Z D C N.
  destruct (CreateGLTextures_spec calls s) as (s' & E & R & Ln & Ct); [lia|lia|].
  assert (R0 : registered s = []) by (unfold registered; now rewrite Z).
  rewrite R0 in R. cbn [app] in R.
  exists s'. split; [exact E|].
  rewrite FindTextureSlot_spec, FindTextureID_spec by lia.
  rewrite R, (first_index_registrations calls i image textureID tag D N).
  destruct (loads image) eqn:Ld; [|split; reflexivity].
  rewrite (nth_registrations calls i image textureID tag N Ld).
  split; reflexivity.
Qed.

(** X13: the table has no bound check of its own.  A sequence of
    [CreateGLTexture] calls returns exactly when the images that load fit
    into the slots the array has left, and the count then grows by their
    number; with one more it writes past the end of [m_textureIDs]. *)
Theorem CreateGLTextures_capacity calls s :
  (m_loadedTextures s <= length (m_textureIDs s))%nat ->
  ((m_loadedTextures s + length (registrations calls) <= length (m_textureIDs s))%nat ->
   exists s', CreateGLTextures calls s = Returned s' /\
              m_loadedTextures s' =
                (m_loadedTextures s + length (registrations calls))%nat /\
              length (m_textureIDs s') = length (m_textureIDs s)) /\
  ((length (m_textureIDs s) < m_loadedTextures s + length (registrations calls))%nat ->
   CreateGLTextures calls s = OutOfBounds).
Proof.
  intro L. split; intro C.
  - destruct (CreateGLTextures_spec calls s L C) as (s' & E & _ & Ln & Ct).
    exists s'. auto.
  - now apply CreateGLTextures_overflows.
Qed.

(** X16: the sampler that [SetShaderTexture] sets names the texture unit
    that [BindGLTextures] bound the texture to.  When [FindTextureSlot]
    returns the slot [i] for a tag, [BindGLTextures] makes two calls for
    each loaded texture, the calls of slot [i] select the texture unit
    [GL_TEXTURE0 + i] and bind the texture whose identifier
    [FindTextureID] returns for the tag. *)
Theorem BindGLTextures_binds_slot s tag i :
  (m_loadedTextures s <= length (m_textureIDs s))%nat ->
  FindTextureSlot tag s = Returned (Z.of_nat i) ->
  exists calls e,
    BindGLTextures s = Returned calls /\
    length calls = (2 * m_loadedTextures s)%nat /\
    nth_error calls (2 * i) = Some (glActiveTexture i) /\
    nth_error calls (2 * i + 1) = Some (glBindTexture (TEXTURE_INFO.ID e)) /\
    FindTextureID tag s = Returned (int_of_GLuint (TEXTURE_INFO.ID e)) /\
    SetShaderTexture true tag s =
      Returned [setIntValue "bUseTexture" 1;
                setSampler2DValue "objectTexture" (Z.of_nat i)].
Proof.
  intros L F.
  unfold SetShaderTexture. rewrite F.
  rewrite FindTextureSlot_spec in F by exact L.
  rewrite FindTextureID_spec by exact L.
  destruct (first_index tag (registered s)) as [k|] eqn:E;
    [|injection F as F; lia].
  injection F as F. apply Nat2Z.inj in F. subst k.
  destruct (first_index_some _ _ _ E) as (e & N & _).
  unfold BindGLTextures. rewrite BindGLTextures_from_spec by (auto; lia).
  cbn [skipn].
  destruct (bind_calls_nth (registered s) 0 i e N) as [A B].
  exists (bind_calls 0 (registered s)), e.
  rewrite bind_calls_length, registered_length by exact L.
  rewrite N. repeat split; auto.
Qed.

(** X17: [DestroyGLTextures] destroys nothing.  It calls [glGenTextures]
    once for each loaded texture and nothing else, which overwrites the
    stored identifier of each with a new name; the count and the tags
    stay, so every tag resolves to the slot it had. *)
Theorem DestroyGLTextures_keeps_table fresh s :
  (m_loadedTextures s <= length (m_textureIDs s))%nat ->
  exists s',
    DestroyGLTextures fresh s =
      Returned (s', repeat glGenTextures (m_loadedTextures s)) /\
    m_loadedTextures s' = m_loadedTextures s /\
    (forall tag, FindTextureSlot tag s' = FindTextureSlot tag s) /\
    (forall i e, (i < m_loadedTextures s)%nat ->
                 nth_error (m_textureIDs s) i = Some e ->
                 nth_error (m_textureIDs s') i =
                 Some (TEXTURE_INFO.mk (GLuint_of (fresh i)) (TEXTURE_INFO.tag e))).
Proof.
  intro L. unfold DestroyGLTextures.
  destruct (DestroyGLTextures_from_spec fresh (m_loadedTextures s)
              (m_loadedTextures s) (m_textureIDs s) 0)
    as (arr' & R & Ln & Nth); [lia|exact L|].
  rewrite R.
  set (s' := {| m_textureIDs := arr'; m_loadedTextures := m_loadedTextures s |}).
  exists s'. split; [reflexivity|]. split; [reflexivity|]. split.
  - intro tag.
    rewrite (FindTextureSlot_spec s'), (FindTextureSlot_spec s)
      by (simpl; lia).
    rewrite (first_index_tags tag (registered s') (registered s)); [reflexivity|].
    unfold registered. simpl. rewrite <- !firstn_map. f_equal.
    apply nth_error_ext. intro j. rewrite !nth_error_map, Nth.
    destruct ((0 <=? j)%nat && (j <? m_loadedTextures s)%nat); [|reflexivity].
    now destruct (nth_error (m_textureIDs s) j).
  - intros i e I N. simpl. rewrite Nth, N.
    apply Nat.ltb_lt in I. now rewrite I.
Qed.

End TextureLookups.

Lemma FindTextureSlot_first_match_witness :
  (FindTextureSlot "bark" grass_bark_table = Returned (-1)%Z /\
   forall i e, (i < 2)%nat ->
               nth_error (m_textureIDs grass_bark_table) i = Some e ->
               TEXTURE_INFO.tag e <> "bark"%string) \/
  (exists i e,
     FindTextureSlot "bark" grass_bark_table = Returned (Z.of_nat i) /\
     (i < 2)%nat /\
     nth_error (m_textureIDs grass_bark_table) i = Some e /\
     TEXTURE_INFO.tag e = "bark"%string /\
     forall j e', (j < i)%nat ->
                  nth_error (m_textureIDs grass_bark_table) j = Some e' ->
                  TEXTURE_INFO.tag e' <> "bark"%string).
Proof.
  apply (FindTextureSlot_first_match grass_bark_table "bark").
  simpl. lia.
Defined.

Lemma FindTextureID_of_slot_witness :
  (FindTextureSlot "gold" grass_bark_table = Returned (-1)%Z /\
   FindTextureID "gold" grass_bark_table = Returned (-1)%Z) \/
  (exists i e,
     FindTextureSlot "gold" grass_bark_table = Returned (Z.of_nat i) /\
     nth_error (m_textureIDs grass_bark_table) i = Some e /\
     FindTextureID "gold" grass_bark_table =
       Returned (int_of_GLuint (TEXTURE_INFO.ID e))).
Proof.
  apply (FindTextureID_of_slot grass_bark_table "gold").
  simpl. lia.
Defined.

Lemma CreateGLTexture_registers_witness :
  exists s',
    CreateGLTexture (Some 4%Z) 3 "moon" grass_bark_table = Returned (true, s') /\
    m_loadedTextures s' = 3%nat /\
    length (m_textureIDs s') = length (m_textureIDs grass_bark_table) /\
    FindTextureSlot "moon" s' = Returned 2%Z /\
    FindTextureID "moon" s' = Returned (int_of_GLuint (GLuint_of 3)).
Proof.
  apply (CreateGLTexture_registers (Some 4%Z) 3 "moon" grass_bark_table).
  - reflexivity.
  - simpl. lia.
  - reflexivity.
Defined.

Lemma CreateGLTexture_keeps_lookups_witness :
  let s' := {| m_textureIDs :=
                 store 2 (TEXTURE_INFO.mk 9 "grass") (m_textureIDs grass_bark_table);
               m_loadedTextures := 3 |} in
  FindTextureSlot "grass" grass_bark_table = Returned 0%Z /\
  FindTextureSlot "grass" s' = FindTextureSlot "grass" grass_bark_table /\
  FindTextureID "grass" s' = FindTextureID "grass" grass_bark_table.
Proof.
  intro s'. split; [reflexivity|].
  apply (CreateGLTexture_keeps_lookups (Some 3%Z) 9 "grass" grass_bark_table true s' "grass").
  - simpl. lia.
  - reflexivity.
  - right. discriminate.
Defined.

Lemma CreateGLTextures_slots_witness :
  exists s',
    CreateGLTextures [(Some 3%Z, 5%Z, "grass"%string); (None, 0%Z, "bark"%string);
                      (Some 4%Z, 6%Z, "moon"%string)] new_SceneManager = Returned s' /\
    FindTextureSlot "moon" s' = Returned 1%Z /\
    FindTextureID "moon" s' = Returned 6%Z.
Proof.
  apply (CreateGLTextures_slots
           [(Some 3%Z, 5%Z, "grass"%string); (None, 0%Z, "bark"%string);
            (Some 4%Z, 6%Z, "moon"%string)] new_SceneManager 2 (Some 4%Z) 6%Z "moon").
  - reflexivity.
  - repeat constructor; simpl; intuition discriminate.
  - simpl. lia.
  - reflexivity.
Defined.

Lemma CreateGLTextures_capacity_witness :
  (exists s', CreateGLTextures [(Some 3%Z, 5%Z, "moon"%string)] grass_bark_table
              = Returned s' /\
              m_loadedTextures s' = 3%nat /\
              length (m_textureIDs s') = length (m_textureIDs grass_bark_table)) /\
  CreateGLTextures [(Some 3%Z, 5%Z, "moon"%string)]
    {| m_textureIDs := [unregistered]; m_loadedTextures := 1 |} = OutOfBounds.
Proof.
  split.
  - apply (proj1 (CreateGLTextures_capacity [(Some 3%Z, 5%Z, "moon"%string)]
                    grass_bark_table ltac:(simpl; lia))).
    simpl. lia.
  - apply (proj2 (CreateGLTextures_capacity [(Some 3%Z, 5%Z, "moon"%string)]
                    {| m_textureIDs := [unregistered]; m_loadedTextures := 1 |}
                    ltac:(simpl; lia))).
    simpl. lia.
Defined.

Lemma BindGLTextures_binds_slot_witness :
  exists calls e,
    BindGLTextures grass_bark_table = Returned calls /\
    length calls = 4%nat /\
    nth_error calls 2 = Some (glActiveTexture 1) /\
    nth_error calls 3 = Some (glBindTexture (TEXTURE_INFO.ID e)) /\
    FindTextureID "bark" grass_bark_table =
      Returned (int_of_GLuint (TEXTURE_INFO.ID e)) /\
    SetShaderTexture true "bark" grass_bark_table =
      Returned [setIntValue "bUseTexture" 1; setSampler2DValue "objectTexture" 1].
Proof.
  apply (BindGLTextures_binds_slot grass_bark_table "bark" 1).
  - simpl. lia.
  - reflexivity.
Defined.

Lemma DestroyGLTextures_keeps_table_witness :
  exists s',
    DestroyGLTextures (fun i => Z.of_nat i + 10)%Z grass_bark_table =
      Returned (s', [glGenTextures; glGenTextures]) /\
    m_loadedTextures s' = 2%nat /\
    (forall tag, FindTextureSlot tag s' = FindTextureSlot tag grass_bark_table) /\
    (forall i e, (i < 2)%nat ->
                 nth_error (m_textureIDs grass_bark_table) i = Some e ->
                 nth_error (m_textureIDs s') i =
                 Some (TEXTURE_INFO.mk (GLuint_of (Z.of_nat i + 10)) (TEXTURE_INFO.tag e))).
Proof.
  apply (DestroyGLTextures_keeps_table (fun i => Z.of_nat i + 10)%Z grass_bark_table).
  simpl. lia.
Defined.

(** ** The textures of [PrepareScene] *)

Section PrepareSceneTextures.
Variable world : String.string -> option Z * Z.

Lemma scene_tags_distinct : NoDup (map snd scene_textures).
Proof.
  repeat (apply NoDup_cons; [simpl; intuition discriminate|]). apply NoDup_nil.
Qed.

Lemma scene_calls_tags :
  map snd (map (fun ft => (fst (world (fst ft)), snd (world (fst ft)), snd ft))
               scene_textures) =
  map snd scene_textures.
Proof. rewrite map_map. reflexivity. Qed.

(** X14: [PrepareScene] fills the table the same way whatever the files
    do.  For every answer of the image loader and of OpenGL, the eleven
    [CreateGLTexture] calls of [PrepareScene] stay inside the array of 16
    entries and register at most 11 textures, whatever the table held
    before; afterwards the tag of a file that loaded resolves to the
    number of files before it in the list that loaded, and the tag of a
    file that did not load resolves to -1. *)
Theorem PrepareScene_textures_slots s :
  exists s',
    PrepareScene_textures world s = Returned s' /\
    length (m_textureIDs s') = 16%nat /\
    (m_loadedTextures s' <= 11)%nat /\
    forall i file tag,
      nth_error scene_textures i = Some (file, tag) ->
      FindTextureSlot tag s' =
      Returned (if loads (fst (world file))
                then Z.of_nat (length (filter (fun ft => loads (fst (world (fst ft))))
                                              (firstn i scene_textures)))
                else (-1)%Z).
Proof.
  unfold PrepareScene_textures.
  set (g := fun ft : String.string * String.string =>
              (fst (world (fst ft)), snd (world (fst ft)), snd ft)).
  pose proof (registrations_length (map g scene_textures)) as Le.
  rewrite length_map in Le. change (length scene_textures) with 11%nat in Le.
  destruct (CreateGLTextures_spec (map g scene_textures) new_SceneManager)
    as (s' & E & R & Ln & Ct);
    [cbn [new_SceneManager m_loadedTextures m_textureIDs]; rewrite repeat_length; lia
    |cbn [new_SceneManager m_loadedTextures m_textureIDs]; rewrite repeat_length; lia|].
  cbn [new_SceneManager m_loadedTextures m_textureIDs] in Ln, Ct.
  rewrite repeat_length in Ln.
  exists s'. split; [exact E|]. split; [exact Ln|].
  split; [lia|].
  intros i file tag N.
  assert (N' : nth_error (map g scene_textures) i =
               Some (fst (world file), snd (world file), tag)).
  { rewrite nth_error_map, N. reflexivity. }
  destruct (CreateGLTextures_slots (map g scene_textures) new_SceneManager i
              (fst (world file)) (snd (world file)) tag) as (s2 & E2 & F & _).
  - reflexivity.
  - unfold g. rewrite scene_calls_tags. exact scene_tags_distinct.
  - cbn [new_SceneManager m_loadedTextures m_textureIDs]. rewrite repeat_length. lia.
  - exact N'.
  - rewrite E in E2. injection E2 as <-. rewrite F.
    rewrite firstn_map, registrations_map. reflexivity.
Qed.

(** X15: a tag that [PrepareScene] does not register makes
    [SetShaderTexture] set the sampler to -1, whatever files load.  The
    drawing code asks for two such tags, "leather" and "gold". *)
Theorem SetShaderTexture_unregistered_tag s tag :
  ~ In tag (map snd scene_textures) ->
  exists s',
    PrepareScene_textures world s = Returned s' /\
    SetShaderTexture true tag s' =
      Returned [setIntValue "bUseTexture" 1; setSampler2DValue "objectTexture" (-1)].
Proof.
  intro Nin. unfold PrepareScene_textures.
  set (g := fun ft : String.string * String.string =>
              (fst (world (fst ft)), snd (world (fst ft)), snd ft)).
  pose proof (registrations_length (map g scene_textures)) as Le.
  rewrite length_map in Le. change (length scene_textures) with 11%nat in Le.
  destruct (CreateGLTextures_spec (map g scene_textures) new_SceneManager)
    as (s' & E & R & Ln & Ct);
    [cbn [new_SceneManager m_loadedTextures m_textureIDs]; rewrite repeat_length; lia
    |cbn [new_SceneManager m_loadedTextures m_textureIDs]; rewrite repeat_length; lia|].
  cbn [new_SceneManager m_loadedTextures m_textureIDs] in Ln, Ct.
  rewrite repeat_length in Ln.
  exists s'. split; [exact E|].
  unfold SetShaderTexture. rewrite FindTextureSlot_spec by lia.
  rewrite R. cbn [registered new_SceneManager m_loadedTextures firstn app].
  replace (first_index tag (registrations (map g scene_textures))) with (@None nat);
    [reflexivity|].
  symmetry. apply first_index_none. intros e I T. apply Nin.
  rewrite <- T. apply registrations_tags in I.
  unfold g in I. now rewrite scene_calls_tags in I.
Qed.

End PrepareSceneTextures.

Lemma SetShaderTexture_unregistered_tag_witness :
  exists s',
    PrepareScene_textures all_loaded new_SceneManager = Returned s' /\
    SetShaderTexture true "leather" s' =
      Returned [setIntValue "bUseTexture" 1; setSampler2DValue "objectTexture" (-1)].
Proof.
  apply (SetShaderTexture_unregistered_tag all_loaded new_SceneManager "leather").
  simpl. intuition discriminate.
Defined.

(** ** Materials *)

Section Materials.
Context {F : Type}.
Implicit Types (m material : OBJECT_MATERIAL.t F) (ms : list (OBJECT_MATERIAL.t F))
  (tag : String.string).

(** X18: what [FindMaterial] returns says whether the list is empty, not
    whether the tag was found.  It returns true exactly when
    [m_objectMaterials] has an entry; when no entry carries the tag,
    [material] is left as it was; when one does, [material] receives the
    diffuse colour, the specular colour and the shininess of the first
    such entry and keeps its own tag. *)
Theorem FindMaterial_result tag material ms :
  (fst (FindMaterial tag material ms) = true <-> ms <> []) /\
  ((forall m, In m ms -> OBJECT_MATERIAL.tag m <> tag) ->
   snd (FindMaterial tag material ms) = material) /\
  (forall l1 m l2,
     ms = l1 ++ m :: l2 -> OBJECT_MATERIAL.tag m = tag ->
     (forall m', In m' l1 -> OBJECT_MATERIAL.tag m' <> tag) ->
     snd (FindMaterial tag material ms) =
     OBJECT_MATERIAL.mk (OBJECT_MATERIAL.diffuseColor m)
                        (OBJECT_MATERIAL.specularColor m)
                        (OBJECT_MATERIAL.shininess m)
                        (OBJECT_MATERIAL.tag material)).
Proof.
  unfold FindMaterial. split; [|split].
  - destruct ms; simpl; split; congruence.
  - intro N. destruct ms; [reflexivity|]. cbn [length Nat.eqb snd].
    now apply FindMaterial_loop_none.
  - intros l1 m l2 E T B.
    assert (L : (length ms =? 0)%nat = false).
    { subst ms. rewrite length_app. cbn [length]. apply Nat.eqb_neq. lia. }
    rewrite L. cbn [snd]. subst ms. now apply FindMaterial_loop_first.
Qed.

(** X19: for a tag that no material carries, [SetShaderMaterial] sends
    the shader whatever its local variable held.  On a list with an entry
    it always makes its three calls: with the values of the first entry
    that carries the tag, or, when there is none, with the values of the
    local [material] that nothing has written. *)
Theorem SetShaderMaterial_sends tag material ms :
  ms <> [] ->
  exists src,
    SetShaderMaterial tag material ms =
      [ setVec3Value "material.diffuseColor" (OBJECT_MATERIAL.diffuseColor src);
        setVec3Value "material.specularColor" (OBJECT_MATERIAL.specularColor src);
        setFloatValue "material.shininess" (OBJECT_MATERIAL.shininess src) ] /\
    (((forall m, In m ms -> OBJECT_MATERIAL.tag m <> tag) /\ src = material) \/
     (exists l1 l2, ms = l1 ++ src :: l2 /\ OBJECT_MATERIAL.tag src = tag /\
                    forall m', In m' l1 -> OBJECT_MATERIAL.tag m' <> tag)).
Proof.
  intro Ne. unfold SetShaderMaterial, FindMaterial.
  destruct ms as [|a ms]; [congruence|]. cbn [length Nat.ltb Nat.leb Nat.eqb].
  destruct (first_material_cases tag (a :: ms)) as [N|(l1 & m & l2 & E & T & B)].
  - exists material. rewrite FindMaterial_loop_none by exact N. auto.
  - exists m. rewrite E, (FindMaterial_loop_first tag l1 m l2 material T B).
    split; [reflexivity|]. right. exists l1, l2. auto.
Qed.

End Materials.

Lemma SetShaderMaterial_sends_witness :
  exists src,
    SetShaderMaterial "gold" stale_material two_materials =
      [ setVec3Value "material.diffuseColor" (OBJECT_MATERIAL.diffuseColor src);
        setVec3Value "material.specularColor" (OBJECT_MATERIAL.specularColor src);
        setFloatValue "material.shininess" (OBJECT_MATERIAL.shininess src) ] /\
    (((forall m, In m two_materials -> OBJECT_MATERIAL.tag m <> "gold"%string) /\
      src = stale_material) \/
     (exists l1 l2, two_materials = l1 ++ src :: l2 /\
                    OBJECT_MATERIAL.tag src = "gold"%string /\
                    forall m', In m' l1 -> OBJECT_MATERIAL.tag m' <> "gold"%string)).
Proof.
  apply (SetShaderMaterial_sends "gold" stale_material two_materials).
  discriminate.
Defined.

(** ** The scroll wheel *)

(** X20: the scroll wheel keeps the camera speed between 1 and 50, unless
    the sum is a NaN.  In binary32, for every speed and every offset, the
    new [MovementSpeed] lies in [1, 50] when [MovementSpeed + yoffset] is
    not a NaN (infinite sums included), and is that NaN when it is: both
    comparisons of the clamp are false for it. *)
Theorem scroll_speed_clamped (MovementSpeed yoffset : b32) :
  exists newSpeed,
    Mouse_Scroll_Wheel_Callback (Some MovementSpeed) yoffset = Some newSpeed /\
    (isnan (fadd MovementSpeed yoffset) = false ->
     (flit 1 <=? newSpeed)%flt = true /\ (newSpeed <=? flit 50)%flt = true) /\
    (isnan (fadd MovementSpeed yoffset) = true -> isnan newSpeed = true).
Proof.
  unfold Mouse_Scroll_Wheel_Callback. cbv zeta.
  set (sum := fadd MovementSpeed yoffset).
  destruct (isnan sum) eqn:N.
  - destruct sum; try discriminate N. eexists. split; [reflexivity|].
    split; [discriminate|]. intros _. vm_compute. reflexivity.
  - assert (O : ordered sum) by (apply SFleb_refl; exact N).
    assert (O1 : ordered (flit 1 : b32)) by (vm_compute; reflexivity).
    assert (O50 : ordered (flit 50 : b32)) by (vm_compute; reflexivity).
    destruct (sum <? flit 1)%flt eqn:A.
    + assert (B : ((flit 50 : b32) <? flit 1)%flt = false) by (vm_compute; reflexivity).
      rewrite B. eexists. split; [reflexivity|]. split; [|discriminate].
      intros _. split; vm_compute; reflexivity.
    + destruct (flit 50 <? sum)%flt eqn:B.
      * eexists. split; [reflexivity|]. split; [|discriminate].
        intros _. split; vm_compute; reflexivity.
      * eexists. split; [reflexivity|]. split; [|discriminate].
        intros _. split.
        -- exact (fleb_total sum (flit 1) O O1 A).
        -- exact (fleb_total (flit 50) sum O50 O B).
Qed.

